(** * fx_ingest: a shallow embedding of the FX-rate ingest pipeline

    The development follows the Python package [fx_ingest]:

    - [api.py]: the payload validator [_validate_payload], the symbol
      cleaner [_clean_symbols], the normaliser [normalize_payload] and the
      caching HTTP client [FrankfurterClient];
    - [db.py]: the SQLite schema ([fx_rates], [ingest_runs]), the batch
      upsert [upsert_rates] and the run life cycle ([start_ingest_run],
      [finish_ingest_run]);
    - [config.py] and [cli.py]: the settings, the parser of [--symbols] and
      the two subcommands [run_backfill] and [run_daily].

    Conventions of the model.

    - A Python [str] is a [string] whose characters are read as the code
      points 0 to 255.  [str.strip] is modelled on all of them.
      [str.upper] is modelled on all but three, the micro sign, the sharp s
      and the y with diaeresis, whose upper case is no single code point of
      that range; what depends on the upper case of a text asks that the
      text holds none of them ([has_upper]).  A Python [float] and an
      SQLite [REAL] are a binary64 [float]; an [int] is a [Z], and an
      SQLite [INTEGER] is a [Z] of 64 bits ([int64]).
    - A [pathlib.Path] is a [Path] of the POSIX flavour: a root and the
      parts after it.
    - A value parsed from JSON is a [json]; a [dict] is the list of its
      items in insertion order.
    - A Python exception is a value of [exn], and a function that may raise
      returns a [result].
    - The SQLite file behind [db_path] is a [database] that is passed in
      and returned.  The cache directory and the requests sent are a
      [world]: the files by path, and the trace of the calls made.
    - Readings of the clock ([CURRENT_TIMESTAMP], [datetime.now]) and the
      answers of the remote service are arguments of the functions that
      use them.
    - [hashlib.sha256] and [json.dumps] are written out; the conversions
      between decimal text and binary64, [repr] and [json.loads] are the
      fields of [Builtins], about which nothing is assumed. *)

From Stdlib Require Import ZArith Ascii String PrimFloat SpecFloat FloatOps.
From stdpp Require Import gmap strings list sorting pretty.

Set Warnings "-register-all,-inexact-float".
Local Open Scope Z_scope.

(** ** Exceptions and results *)

Inductive exn : Type :=
  | ValueError (msg : string)       (* raised by the package, with its message *)
  | FloatParseError (text : string) (* ValueError of float(str) *)
  | TypeError
  | AttributeError
  | OverflowError
  | IntegrityError (msg : string)   (* sqlite3.IntegrityError *)
  | OperationalError (msg : string) (* sqlite3.OperationalError *)
  | OSError                         (* a directory or a file refused *)
  | UnknownLevel (name : string)    (* ValueError of logging: no such level *)
  | ConnectionError                 (* requests: no response *)
  | HTTPError (status_code : Z)     (* raise_for_status *)
  | JSONDecodeError.

Inductive result (A : Type) : Type :=
  | Ok (a : A)
  | Err (e : exn).
Arguments Ok {A} a.
Arguments Err {A} e.

#[global] Instance result_ret : MRet result := fun A a => Ok a.
#[global] Instance result_bind : MBind result := fun A B k r =>
  match r with
  | Ok a => k a
  | Err e => Err e
  end.

(** ** Python strings *)

Definition code (c : ascii) : Z := Z.of_N (N_of_ascii c).

(** [str.isspace] on one character: tab to carriage return, the four
    separators 0x1c-0x1f, the space, the next-line control 0x85 and the
    no-break space 0xa0. *)
Definition is_space (c : ascii) : bool :=
  ((9 <=? code c) && (code c <=? 13)) ||
  ((28 <=? code c) && (code c <=? 32)) ||
  (code c =? 133) || (code c =? 160).

Fixpoint lstrip_with (p : ascii → bool) (s : string) : string :=
  match s with
  | EmptyString => EmptyString
  | String c s' => if p c then lstrip_with p s' else s
  end.

Fixpoint rstrip_with (p : ascii → bool) (s : string) : string :=
  match s with
  | EmptyString => EmptyString
  | String c s' =>
      match rstrip_with p s' with
      | EmptyString => if p c then EmptyString else String c EmptyString
      | r => String c r
      end
  end.

(** [s.strip()]. *)
Definition strip (s : string) : string :=
  rstrip_with is_space (lstrip_with is_space s).

(** [s.rstrip("/")]. *)
Definition rstrip_slash (s : string) : string :=
  rstrip_with (fun c => bool_decide (c = "/"%char)) s.

(** The upper case of one character: of a letter from a to z, and of a
    letter from 0xe0 to 0xfe other than the division sign 0xf7, the
    character 32 places before it; of any other character but the three
    of [has_upper_char], the character itself. *)
Definition upper_char (c : ascii) : ascii :=
  if ((97 <=? code c) && (code c <=? 122)) ||
     ((224 <=? code c) && (code c <=? 254) && negb (code c =? 247))
  then ascii_of_N (Z.to_N (code c - 32))
  else c.

(** [s.upper()], for a text that [has_upper]. *)
Fixpoint upper (s : string) : string :=
  match s with
  | EmptyString => EmptyString
  | String c s' => String (upper_char c) (upper s')
  end.

(** The characters whose upper case is one character of the range: all
    but the micro sign 0xb5 (upper case U+039C), the sharp s 0xdf (upper
    case SS) and the y with diaeresis 0xff (upper case U+0178). *)
Definition has_upper_char (c : ascii) : bool :=
  negb ((code c =? 181) || (code c =? 223) || (code c =? 255)).

Fixpoint has_upper (s : string) : bool :=
  match s with
  | EmptyString => true
  | String c s' => has_upper_char c && has_upper s'
  end.

(** [sep.join(parts)]. *)
Definition join (sep : string) (parts : list string) : string :=
  String.concat sep parts.

(** Truth value of a [str]: non-empty. *)
Definition str_truthy (s : string) : bool :=
  match s with
  | EmptyString => false
  | String _ _ => true
  end.

(** Order of [str] under [<=]: lexicographic by code point. *)
Fixpoint str_le (s1 s2 : string) : bool :=
  match s1, s2 with
  | EmptyString, _ => true
  | String _ _, EmptyString => false
  | String c1 r1, String c2 r2 =>
      if code c1 <? code c2 then true
      else if code c2 <? code c1 then false
      else str_le r1 r2
  end.

(** ** JSON values *)

(** What [response.json()] and [json.loads] return.  A Python [dict] keeps
    its items in insertion order: it is the list of its items, and a
    well-formed one has no key twice ([dict_wf]). *)
Inductive json : Type :=
  | JNull
  | JBool (b : bool)
  | JInt (z : Z)
  | JFloat (f : float)
  | JStr (s : string)
  | JList (l : list json)
  | JDict (items : list (string * json)).

Definition dict_keys {A} (d : list (string * A)) : list string := d.*1.
Definition dict_values {A} (d : list (string * A)) : list A := d.*2.

Definition dict_wf {A} (d : list (string * A)) : Prop := NoDup (dict_keys d).

(** [d.get(k)]. *)
Fixpoint dict_get {A} (k : string) (d : list (string * A)) : option A :=
  match d with
  | [] => None
  | (k', v) :: d' => if decide (k' = k) then Some v else dict_get k d'
  end.

(** [bool(v)]. *)
Definition truthy (v : json) : bool :=
  match v with
  | JNull => false
  | JBool b => b
  | JInt z => negb (z =? 0)
  | JFloat f => negb (PrimFloat.eqb f 0%float)
  | JStr s => str_truthy s
  | JList l => match l with [] => false | _ :: _ => true end
  | JDict d => match d with [] => false | _ :: _ => true end
  end.

(** [isinstance(v, (int, float))]; [bool] is a subclass of [int]. *)
Definition is_number (v : json) : bool :=
  match v with
  | JBool _ | JInt _ | JFloat _ => true
  | _ => false
  end.

(** ** Built-ins taken as given

    Parts of the Python runtime that the package calls and that are not
    modelled further: decimal text to binary64 and back, [repr] of a value
    that is not a [str], and the JSON parser. *)
Class Builtins : Type := {
  float_of_str : string → option float;  (* float(s), None: ValueError *)
  float_repr : float → string;           (* float.__repr__ of a finite float *)
  py_repr : json → string;               (* str(v) of a value that is no str *)
  json_loads : string → option json;     (* json.loads, None: JSONDecodeError *)
}.

(** [float(n)] of an [int]: the nearest binary64, ties to even;
    [OverflowError] when that is out of range. *)
Definition float_of_int (z : Z) : result float :=
  let f := SF2Prim (binary_normalize 53 1024 z 0 false) in
  if PrimFloat.is_infinity f then Err OverflowError else Ok f.

Section WithBuiltins.
Context `{Builtins}.

(** [float(v)]. *)
Definition py_float (v : json) : result float :=
  match v with
  | JFloat f => Ok f
  | JInt z => float_of_int z
  | JBool b => Ok (if b then 1%float else 0%float)
  | JStr s =>
      match float_of_str s with
      | Some f => Ok f
      | None => Err (FloatParseError s)
      end
  | JNull | JList _ | JDict _ => Err TypeError
  end.

(** [str(v)]. *)
Definition py_str (v : json) : string :=
  match v with
  | JStr s => s
  | _ => py_repr v
  end.

(** ** json.dumps *)

Definition hex_digit (n : Z) : ascii :=
  if n <? 10 then ascii_of_N (Z.to_N (48 + n)) else ascii_of_N (Z.to_N (87 + n)).

(** One character of a string under [ensure_ascii=True]. *)
Definition escape_char (c : ascii) : string :=
  if decide (code c = 34) then String "\" (String "034" EmptyString)
  else if decide (code c = 92) then "\\"
  else if decide (code c = 10) then "\n"
  else if decide (code c = 13) then "\r"
  else if decide (code c = 9) then "\t"
  else if decide (code c = 8) then "\b"
  else if decide (code c = 12) then "\f"
  else if (32 <=? code c) && (code c <=? 126) then String c EmptyString
  else "\u00" +:+ String (hex_digit (code c / 16))
                   (String (hex_digit (code c mod 16)) EmptyString).

Fixpoint escape (s : string) : string :=
  match s with
  | EmptyString => EmptyString
  | String c s' => escape_char c +:+ escape s'
  end.

Definition encode_str (s : string) : string :=
  String "034" (escape s +:+ String "034" EmptyString).

(** [floatstr] of the encoder ([allow_nan=True]). *)
Definition encode_float (f : float) : string :=
  if PrimFloat.is_nan f then "NaN"
  else if PrimFloat.is_infinity f then
    (if PrimFloat.ltb f 0%float then "-Infinity" else "Infinity")
  else float_repr f.

(** Insertion of an item into a list of items sorted by key. *)
Fixpoint insert_item {A} (x : string * A) (l : list (string * A))
    : list (string * A) :=
  match l with
  | [] => [x]
  | y :: l' => if str_le x.1 y.1 then x :: l else y :: insert_item x l'
  end.

(** [sorted(d.items())] of a dictionary with [str] keys. *)
Fixpoint sort_items {A} (l : list (string * A)) : list (string * A) :=
  match l with
  | [] => []
  | x :: l' => insert_item x (sort_items l')
  end.

Definition encode_item (kv : string * string) : string :=
  encode_str kv.1 +:+ ": " +:+ kv.2.

(** [json.dumps(v, ensure_ascii=True, sort_keys=sort_keys)] with the default
    separators.  The items of a dictionary are encoded and then ordered by
    key, which gives the text the encoder produces by ordering them first. *)
Fixpoint json_dumps (sort_keys : bool) (v : json) : string :=
  match v with
  | JNull => "null"
  | JBool true => "true"
  | JBool false => "false"
  | JInt z => pretty z
  | JFloat f => encode_float f
  | JStr s => encode_str s
  | JList l => "[" +:+ join ", " (map (json_dumps sort_keys) l) +:+ "]"
  | JDict d =>
      let items := map (fun kv : string * json =>
                          (kv.1, json_dumps sort_keys kv.2)) d in
      "{" +:+ join ", " (map encode_item
                           (if sort_keys then sort_items items else items))
          +:+ "}"
  end.

End WithBuiltins.

(** Keys in increasing order, as [sort_items] leaves them, and in strictly
    increasing order. *)
Definition key_le {A} (x y : string * A) : Prop := str_le x.1 y.1 = true.

Definition key_lt {A} (x y : string * A) : Prop :=
  str_le x.1 y.1 = true ∧ x.1 ≠ y.1.

(** The dictionary with every key in order, at every depth: what
    [sort_keys=True] makes the encoder walk. *)
Fixpoint canonical (v : json) : json :=
  match v with
  | JList l => JList (map canonical l)
  | JDict d => JDict (sort_items (map (fun kv : string * json =>
                                         (kv.1, canonical kv.2)) d))
  | _ => v
  end.

(** A stand-in for the built-ins, for the examples: it refuses every text
    and prints nothing, so an example that evaluates with it does not rest
    on what the built-ins return. *)
Definition no_builtins : Builtins :=
  {| float_of_str := fun _ => None; float_repr := fun _ => EmptyString;
     py_repr := fun _ => EmptyString; json_loads := fun _ => None |}.

(** ** hashlib.sha256 and str.encode

    SHA-256 on a list of bytes, with 32-bit words as integers and the
    wrap-around written out. *)
Module Sha256.

Definition mask32 (x : Z) : Z := x mod 2 ^ 32.
Definition add32 (x y : Z) : Z := mask32 (x + y).
Definition rotr (n x : Z) : Z :=
  Z.lor (Z.shiftr x n) (mask32 (Z.shiftl x (32 - n))).

Definition ch (x y z : Z) : Z :=
  Z.lxor (Z.land x y) (Z.land (Z.lxor x (2 ^ 32 - 1)) z).
Definition maj (x y z : Z) : Z :=
  Z.lxor (Z.lxor (Z.land x y) (Z.land x z)) (Z.land y z).
Definition big_sigma0 (x : Z) : Z :=
  Z.lxor (Z.lxor (rotr 2 x) (rotr 13 x)) (rotr 22 x).
Definition big_sigma1 (x : Z) : Z :=
  Z.lxor (Z.lxor (rotr 6 x) (rotr 11 x)) (rotr 25 x).
Definition small_sigma0 (x : Z) : Z :=
  Z.lxor (Z.lxor (rotr 7 x) (rotr 18 x)) (Z.shiftr x 3).
Definition small_sigma1 (x : Z) : Z :=
  Z.lxor (Z.lxor (rotr 17 x) (rotr 19 x)) (Z.shiftr x 10).

(** Value of a hexadecimal digit, and of a run of them. *)
Definition hex_value (c : ascii) : Z :=
  if code c <? 58 then code c - 48 else code c - 87.

Fixpoint hex_number (acc : Z) (s : string) : Z :=
  match s with
  | EmptyString => acc
  | String c s' => hex_number (16 * acc + hex_value c) s'
  end.

(** The words of a table written as blank-separated hexadecimal numbers. *)
Fixpoint hex_words (cur : string) (s : string) : list Z :=
  match s with
  | EmptyString =>
      match cur with
      | EmptyString => []
      | _ => [hex_number 0 (String.rev cur)]
      end
  | String c s' =>
      if decide (c = " "%char) then
        match cur with
        | EmptyString => hex_words EmptyString s'
        | _ => hex_number 0 (String.rev cur) :: hex_words EmptyString s'
        end
      else hex_words (String c cur) s'
  end.

Definition initial_hash : list Z :=
  Eval vm_compute in
    hex_words ""
      "6a09e667 bb67ae85 3c6ef372 a54ff53a 510e527f 9b05688c 1f83d9ab 5be0cd19".

Definition round_constants : list Z :=
  Eval vm_compute in
    hex_words ""
      ("428a2f98 71374491 b5c0fbcf e9b5dba5 3956c25b 59f111f1 923f82a4 ab1c5ed5 " +:+
       "d807aa98 12835b01 243185be 550c7dc3 72be5d74 80deb1fe 9bdc06a7 c19bf174 " +:+
       "e49b69c1 efbe4786 0fc19dc6 240ca1cc 2de92c6f 4a7484aa 5cb0a9dc 76f988da " +:+
       "983e5152 a831c66d b00327c8 bf597fc7 c6e00bf3 d5a79147 06ca6351 14292967 " +:+
       "27b70a85 2e1b2138 4d2c6dfc 53380d13 650a7354 766a0abb 81c2c92e 92722c85 " +:+
       "a2bfe8a1 a81a664b c24b8b70 c76c51a3 d192e819 d6990624 f40e3585 106aa070 " +:+
       "19a4c116 1e376c08 2748774c 34b0bcb5 391c0cb3 4ed8aa4a 5b9cca4f 682e6ff3 " +:+
       "748f82ee 78a5636f 84c87814 8cc70208 90befffa a4506ceb bef9a3f7 c67178f2").

(** Big-endian bytes of a number, [n] of them. *)
Fixpoint be_bytes (n : nat) (x : Z) : list Z :=
  match n with
  | O => []
  | S n' => (x / 256 ^ Z.of_nat n') mod 256 :: be_bytes n' x
  end.

Definition be_word (bytes : list Z) : Z :=
  foldl (fun acc b => 256 * acc + b) 0 bytes.

(** The message followed by the bit 1, zeros up to 56 modulo 64 bytes, and
    the length in bits on 8 bytes. *)
Definition pad (msg : list Z) : list Z :=
  let len := Z.of_nat (length msg) in
  let zeros := Z.to_nat ((55 - len) mod 64) in
  msg ++ [128] ++ replicate zeros 0 ++ be_bytes 8 (8 * len).

(** Cuts a list into pieces of [n] elements ([fuel] bounds their number). *)
Fixpoint chunks {A} (fuel n : nat) (l : list A) : list (list A) :=
  match fuel, l with
  | O, _ | _, [] => []
  | S fuel', _ => take n l :: chunks fuel' n (drop n l)
  end.

(** The message schedule, latest word first: [ws] holds W(t-1), W(t-2), ... *)
Fixpoint schedule (n : nat) (ws : list Z) : list Z :=
  match n with
  | O => ws
  | S n' =>
      let w :=
        add32 (add32 (small_sigma1 (nth 1 ws 0)) (nth 6 ws 0))
              (add32 (small_sigma0 (nth 14 ws 0)) (nth 15 ws 0)) in
      schedule n' (w :: ws)
  end.

Definition block_words (block : list Z) : list Z :=
  reverse (schedule 48 (reverse (be_word <$> chunks 16 4 block))).

Definition round (st : list Z) (kw : Z * Z) : list Z :=
  match st with
  | [a; b; c; d; e; f; g; h] =>
      let t1 := add32 (add32 (add32 h (big_sigma1 e)) (ch e f g))
                      (add32 kw.1 kw.2) in
      let t2 := add32 (big_sigma0 a) (maj a b c) in
      [add32 t1 t2; a; b; c; add32 d t1; e; f; g]
  | _ => st
  end.

Definition compress (hash : list Z) (block : list Z) : list Z :=
  zip_with add32 hash
    (foldl round hash (zip round_constants (block_words block))).

Definition digest (msg : list Z) : list Z :=
  let padded := pad msg in
  mjoin (be_bytes 4 <$>
         foldl compress initial_hash (chunks (length padded) 64 padded)).

End Sha256.

(** [s.encode("utf-8")], for code points below 256. *)
Fixpoint utf8_encode (s : string) : list Z :=
  match s with
  | EmptyString => []
  | String c s' =>
      (if code c <? 128 then [code c]
       else [192 + code c / 64; 128 + code c mod 64]) ++ utf8_encode s'
  end.

Fixpoint hex_of_bytes (bytes : list Z) : string :=
  match bytes with
  | [] => EmptyString
  | b :: bytes' =>
      String (hex_digit (b / 16)) (String (hex_digit (b mod 16))
                                     (hex_of_bytes bytes'))
  end.

(** [hashlib.sha256(data).hexdigest()]. *)
Definition sha256_hexdigest (data : list Z) : string :=
  hex_of_bytes (Sha256.digest data).
(** ** api.py *)

(** One element of the list [normalize_payload] returns, which is also one
    element of the [rows] argument of [upsert_rates]: a dictionary with the
    six keys below. *)
Record RateRow : Type := {
  row_date : string;
  row_base : string;
  row_symbol : string;
  row_rate : float;
  row_source : string;
  row_fetched_at : string;
}.

Definition _validate_payload (payload : json) : result () :=
  match payload with
  | JDict d =>
      match dict_get "rates" d with
      | None => Err (ValueError "Resposta da API invalida: campo rates ausente.")
      | Some (JDict _) => Ok ()
      | Some _ => Err (ValueError "Resposta da API invalida: rates deve ser objeto.")
      end
  | _ => Err (ValueError "Resposta da API invalida: payload nao e objeto.")
  end.

Definition _clean_symbols (symbols : list string) : result (list string) :=
  let cleaned :=
    map (fun s => upper (strip s))
        (List.filter (fun s => str_truthy (strip s)) symbols) in
  match cleaned with
  | [] => Err (ValueError "Informe ao menos um symbol.")
  | _ :: _ => Ok cleaned
  end.

(** What the client touches outside the process: the files of the cache
    directory, and the calls it made, in order. *)
Inductive event : Type :=
  | CacheExists (path : string)
  | CacheRead (path : string)
  | CacheWrite (path : string) (text : string)
  | HttpGet (url : string) (params : list (string * json)) (timeout : Z).

Record world : Type := {
  files : gmap string string;
  trace : list event;
}.

Definition log (e : event) (w : world) : world :=
  {| files := files w; trace := trace w ++ [e] |}.

Definition write_text (path text : string) (w : world) : world :=
  {| files := <[path := text]> (files w);
     trace := trace w ++ [CacheWrite path text] |}.

(** The answer to one [requests.get]: none, or a status code and the body
    as [response.json()] parses it ([None] when it is no JSON). *)
Inductive http_response : Type :=
  | NoResponse
  | Response (status_code : Z) (body : option json).

Section Api.
Context `{Builtins}.

(** [(base or payload.get("base") or "").upper()]. *)
Definition base_value (base : option string) (d : list (string * json))
    : result string :=
  let from_payload :=
    match dict_get "base" d with
    | Some v => if truthy v then v else JStr ""
    | None => JStr ""
    end in
  let chosen :=
    match base with
    | Some b => if str_truthy b then JStr b else from_payload
    | None => from_payload
    end in
  match chosen with
  | JStr s => Ok (upper s)
  | _ => Err AttributeError
  end.

(** The dictionary appended to [rows] for one symbol-rate pair. *)
Definition make_row (date base source timestamp : string)
    (item : string * json) : result RateRow :=
  r ← py_float item.2;
  Ok {| row_date := date; row_base := base; row_symbol := upper item.1;
        row_rate := r; row_source := source; row_fetched_at := timestamp |}.

(** The body of the loop over [rates.items()] in the series branch. *)
Definition series_rows (base source timestamp : string)
    (item : string * json) : result (list RateRow) :=
  match item.2 with
  | JDict per_symbol => mapM (make_row item.1 base source timestamp) per_symbol
  | _ => Err (ValueError "Formato de rates invalido para serie temporal.")
  end.

(** [normalize_payload]; [now] is [datetime.now(timezone.utc).isoformat()],
    and a caller that leaves [source] out passes ["frankfurter"].  The two
    [TypeError] branches are behind the validator and never taken. *)
Definition normalize_payload (now : string) (payload : json)
    (base : option string) (source : string) (fetched_at : option string)
    : result (list RateRow) :=
  _validate_payload payload;;
  match payload with
  | JDict d =>
      base_value ← base_value base d;
      if negb (str_truthy base_value) then
        Err (ValueError "Payload sem base valida.")
      else
        let timestamp :=
          match fetched_at with
          | Some t => if str_truthy t then t else now
          | None => now
          end in
        match dict_get "rates" d with
        | Some (JDict rates) =>
            if match rates with [] => false | _ :: _ => true end
               && forallb is_number (dict_values rates)
            then
              let row_date :=
                match dict_get "date" d with
                | Some v => py_str v
                | None => ""
                end in
              if negb (str_truthy row_date) then
                Err (ValueError "Payload latest sem campo date.")
              else mapM (make_row row_date base_value source timestamp) rates
            else
              rows ← mapM (series_rows base_value source timestamp) rates;
              Ok (concat rows)
        | _ => Err TypeError
        end
  | _ => Err TypeError
  end.

End Api.

(** ** pathlib

    [s.split(sep)] for a separator of one character. *)
Fixpoint split_on (sep : ascii) (s : string) : list string :=
  match s with
  | EmptyString => [EmptyString]
  | String c s' =>
      if decide (c = sep) then EmptyString :: split_on sep s'
      else
        match split_on sep s' with
        | [] => [String c EmptyString]
        | piece :: pieces => String c piece :: pieces
        end
  end.

Fixpoint leading_slashes (s : string) : nat :=
  match s with
  | EmptyString => 0
  | String c s' => if decide (c = "/"%char) then S (leading_slashes s') else 0
  end.

(** A [pathlib.Path] of the POSIX flavour: the root (none, one slash, or
    two when the text starts with exactly two) and the parts after it,
    without the empty ones and the dots. *)
Module Path.

Record t : Type := {
  root : string;
  parts : list string;
}.

(** [Path(s)]. *)
Definition of_str (s : string) : t :=
  {| root := match leading_slashes s with
             | 0%nat => ""
             | 2%nat => "//"
             | _ => "/"
             end;
     parts := List.filter (fun part => negb (String.eqb part "" || String.eqb part "."))
                (split_on "/" s) |}.

(** [str(p)]. *)
Definition str (p : t) : string :=
  match root p, parts p with
  | EmptyString, [] => "."
  | _, _ => root p +:+ join "/" (parts p)
  end.

(** [p / s]: a rooted [s] replaces [p]. *)
Definition joinpath (p : t) (s : string) : t :=
  let q := of_str s in
  if str_truthy (root q) then q
  else {| root := root p; parts := parts p ++ parts q |}.

(** [p.parent]. *)
Definition parent (p : t) : t :=
  {| root := root p; parts := removelast (parts p) |}.

End Path.

Module FrankfurterClient.

Record t : Type := {
  base_url : string;
  cache_dir : string;
  timeout_seconds : Z;
  use_cache : bool;
}.

(** The fields the constructor sets; [cache_dir] is the text its [Path] is
    made of.  The constructor also creates that directory, which is a step
    of the runs below. *)
Definition __init__ (base_url_ cache_dir_ : string) (timeout_seconds_ : Z)
    (use_cache_ : bool) : t :=
  {| base_url := rstrip_slash base_url_; cache_dir := cache_dir_;
     timeout_seconds := timeout_seconds_; use_cache := use_cache_ |}.

Section Methods.
Context `{Builtins}.

Definition _cache_key (endpoint : string) (params : list (string * json))
    : string :=
  let key :=
    json_dumps true
      (JDict [("endpoint", JStr endpoint); ("params", JDict params)]) in
  sha256_hexdigest (utf8_encode key).

(** [_cache_file], as the text of the path. *)
Definition _cache_file (self : t) (endpoint : string)
    (params : list (string * json)) : string :=
  Path.str
    (Path.joinpath (Path.of_str (cache_dir self))
       (_cache_key endpoint params +:+ ".json")).

(** [_get_json]; [server] is what the service answers to a request. *)
Definition _get_json (self : t)
    (server : string → list (string * json) → http_response) (w : world)
    (endpoint : string) (params : list (string * json))
    : result json * world :=
  let cache_file := _cache_file self endpoint params in
  let w := if use_cache self then log (CacheExists cache_file) w else w in
  match (if use_cache self then files w !! cache_file else None) with
  | Some text =>
      (match json_loads text with
       | Some payload => Ok payload
       | None => Err JSONDecodeError
       end,
       log (CacheRead cache_file) w)
  | None =>
      let url := base_url self +:+ endpoint in
      let w := log (HttpGet url params (timeout_seconds self)) w in
      match server url params with
      | NoResponse => (Err ConnectionError, w)
      | Response status_code body =>
          if (400 <=? status_code) && (status_code <? 600) then
            (Err (HTTPError status_code), w)
          else
            match body with
            | None => (Err JSONDecodeError, w)
            | Some payload =>
                match _validate_payload payload with
                | Err e => (Err e, w)
                | Ok _ =>
                    (Ok payload,
                     if use_cache self
                     then write_text cache_file (json_dumps false payload) w
                     else w)
                end
            end
      end
  end.

Definition fetch_latest (self : t)
    (server : string → list (string * json) → http_response) (w : world)
    (base : string) (symbols : list string) : result json * world :=
  let base_ := upper base in
  match _clean_symbols symbols with
  | Err e => (Err e, w)
  | Ok cleaned =>
      _get_json self server w "/v1/latest"
        [("base", JStr base_); ("symbols", JStr (join "," cleaned))]
  end.

Definition fetch_timeseries (self : t)
    (server : string → list (string * json) → http_response) (w : world)
    (start end_ base : string) (symbols : list string)
    : result json * world :=
  let base_ := upper base in
  match _clean_symbols symbols with
  | Err e => (Err e, w)
  | Ok cleaned =>
      _get_json self server w ("/v1/" +:+ start +:+ ".." +:+ end_)
        [("base", JStr base_); ("symbols", JStr (join "," cleaned))]
  end.

End Methods.
End FrankfurterClient.
(** ** db.py *)

(** [PRIMARY KEY (date, base, symbol)]. *)
Definition rate_key (r : RateRow) : string * string * string :=
  (row_date r, row_base r, row_symbol r).

(** The columns of [fx_rates] outside the primary key.  [created_at] and
    [updated_at] hold a reading of [CURRENT_TIMESTAMP]: whole seconds, which
    SQLite renders as text in an order-preserving format. *)
Record fx_rate : Type := {
  rate : float;
  source : string;
  fetched_at : string;
  created_at : Z;
  updated_at : Z;
}.

(** A row of [ingest_runs] (the [id] is the key of the table). *)
Record ingest_run : Type := {
  command : string;
  args : option string;
  status : string;
  started_at : string;
  finished_at : option string;
  rows_inserted : Z;
  error_message : option string;
}.

(** The database after [SCHEMA_SQL]: both tables, and the counter SQLite
    keeps for [AUTOINCREMENT] (the largest [id] ever handed out). *)
Record database : Type := {
  fx_rates : gmap (string * string * string) fx_rate;
  ingest_runs : gmap Z ingest_run;
  ingest_runs_seq : Z;
}.

Definition with_fx_rates (t : gmap (string * string * string) fx_rate)
    (db : database) : database :=
  {| fx_rates := t; ingest_runs := ingest_runs db;
     ingest_runs_seq := ingest_runs_seq db |}.

Definition with_ingest_runs (t : gmap Z ingest_run) (seq : Z)
    (db : database) : database :=
  {| fx_rates := fx_rates db; ingest_runs := t; ingest_runs_seq := seq |}.

(** [init_db]: [CREATE TABLE IF NOT EXISTS] on a file that may not exist. *)
Definition init_db (file : option database) : database :=
  match file with
  | Some db => db
  | None => {| fx_rates := ∅; ingest_runs := ∅; ingest_runs_seq := 0 |}
  end.

(** The integers SQLite holds: signed, of 64 bits.  Binding another [int]
    raises [OverflowError]. *)
Definition int64 (z : Z) : bool := (- 2 ^ 63 <=? z) && (z <? 2 ^ 63).

(** What a [REAL] column gives back for the number stored in it: the
    number, a zero without its sign. *)
Definition real (f : float) : float :=
  if PrimFloat.eqb f 0%float then 0%float else f.

(** One execution of [UPSERT_SQL] at clock reading [now].  SQLite binds a
    NaN as NULL, which [rate REAL NOT NULL] refuses. *)
Definition UPSERT_SQL (now : Z) (r : RateRow)
    (t : gmap (string * string * string) fx_rate)
    : result (gmap (string * string * string) fx_rate) :=
  if PrimFloat.is_nan (row_rate r) then
    Err (IntegrityError "NOT NULL constraint failed: fx_rates.rate")
  else
    match t !! rate_key r with
    | None =>
        Ok (<[rate_key r := {| rate := real (row_rate r);
                               source := row_source r;
                               fetched_at := row_fetched_at r;
                               created_at := now; updated_at := now |}]> t)
    | Some old =>
        Ok (<[rate_key r := {| rate := real (row_rate r);
                               source := row_source r;
                               fetched_at := row_fetched_at r;
                               created_at := created_at old;
                               updated_at := now |}]> t)
    end.

(** [conn.executemany(UPSERT_SQL, rows)]: the statement runs once per row,
    in order; the [i]-th execution reads the clock as [clock i]. *)
Fixpoint executemany (clock : nat → Z) (i : nat) (rows : list RateRow)
    (t : gmap (string * string * string) fx_rate)
    : result (gmap (string * string * string) fx_rate) :=
  match rows with
  | [] => Ok t
  | r :: rows' => t' ← UPSERT_SQL (clock i) r t; executemany clock (S i) rows' t'
  end.

(** [upsert_rates].  The [with] block commits when its body returns and
    rolls back when it raises. *)
Definition upsert_rates (clock : nat → Z) (db : database) (rows : list RateRow)
    : result Z * database :=
  match rows with
  | [] => (Ok 0, db)
  | _ :: _ =>
      match executemany clock 0 rows (fx_rates db) with
      | Ok t => (Ok (Z.of_nat (length rows)), with_fx_rates t db)
      | Err e => (Err e, db)
      end
  end.

(** [start_ingest_run]: the new [id] is one more than the largest ever
    used, and when that is the largest there is, the [INSERT] fails and
    stores nothing; [now] is [datetime.now(timezone.utc).isoformat()]. *)
Definition start_ingest_run `{Builtins} (now : string) (db : database)
    (command_ : string) (args_ : list (string * json)) : result Z * database :=
  if ingest_runs_seq db <? 2 ^ 63 - 1 then
    let id := ingest_runs_seq db + 1 in
    (Ok id,
     with_ingest_runs
       (<[id := {| command := command_;
                   args := Some (json_dumps true (JDict args_));
                   status := "RUNNING"; started_at := now; finished_at := None;
                   rows_inserted := 0; error_message := None |}]>
          (ingest_runs db))
       id db)
  else (Err (OperationalError "database or disk is full"), db).

(** The [SET] clause of the [UPDATE] in [finish_ingest_run]. *)
Definition set_finished (status_ finished_at_ : string) (rows_inserted_ : Z)
    (error_message_ : option string) (r : ingest_run) : ingest_run :=
  {| command := command r; args := args r; status := status_;
     started_at := started_at r; finished_at := Some finished_at_;
     rows_inserted := rows_inserted_; error_message := error_message_ |}.

(** [finish_ingest_run]: [UPDATE ingest_runs SET ... WHERE id = ?], which
    raises [OverflowError] and changes nothing when [rows_inserted] or
    [run_id] is no integer of 64 bits.  [now] is
    [datetime.now(timezone.utc).isoformat()]. *)
Definition finish_ingest_run (now : string) (db : database) (run_id : Z)
    (status_ : string) (rows_inserted_ : Z) (error_message_ : option string)
    : result () * database :=
  if int64 rows_inserted_ && int64 run_id then
    (Ok (),
     with_ingest_runs
       (alter (set_finished status_ now rows_inserted_ error_message_) run_id
          (ingest_runs db))
       (ingest_runs_seq db) db)
  else (Err OverflowError, db).

(** A row the schema accepts: its [rate] is a number ([rate REAL NOT NULL];
    a NaN is stored as NULL). *)
Definition well_formed (r : RateRow) : Prop :=
  PrimFloat.is_nan (row_rate r) = false.

(** The columns of a row of [upsert_rates] outside the primary key, as
    the table holds them, and the same columns of a stored row. *)
Definition row_values (r : RateRow) : float * string * string :=
  (real (row_rate r), row_source r, row_fetched_at r).

Definition stored_values (x : fx_rate) : float * string * string :=
  (rate x, source x, fetched_at x).

(** ** Sample data

    The rows and the payload of the package's smoke test, and small
    databases around them, for the examples below. *)

Definition brl_row : RateRow :=
  {| row_date := "2026-02-10"; row_base := "USD"; row_symbol := "BRL";
     row_rate := 5.12%float; row_source := "frankfurter";
     row_fetched_at := "2026-02-10T00:00:00+00:00" |}.

Definition eur_row : RateRow :=
  {| row_date := "2026-02-10"; row_base := "USD"; row_symbol := "EUR";
     row_rate := 0.93%float; row_source := "frankfurter";
     row_fetched_at := "2026-02-10T00:00:00+00:00" |}.

(** [rows[0]["rate"] = 5.22] of the smoke test, fetched a day later. *)
Definition brl_row_revised : RateRow :=
  {| row_date := "2026-02-10"; row_base := "USD"; row_symbol := "BRL";
     row_rate := 5.22%float; row_source := "frankfurter";
     row_fetched_at := "2026-02-11T00:00:00+00:00" |}.

Definition brl_stored : fx_rate :=
  {| rate := 5.12%float; source := "frankfurter";
     fetched_at := "2026-02-10T00:00:00+00:00";
     created_at := 1770681600; updated_at := 1770681600 |}.

Definition run_ok : ingest_run :=
  {| command := "daily"; args := Some "{}"; status := "OK";
     started_at := "2026-02-10T00:00:00+00:00";
     finished_at := Some "2026-02-10T00:00:01+00:00";
     rows_inserted := 2; error_message := None |}.

(** A database with one stored rate and one run that finished with OK. *)
Definition sample_db : database :=
  {| fx_rates := {[ rate_key brl_row := brl_stored ]};
     ingest_runs := {[ 1 := run_ok ]};
     ingest_runs_seq := 1 |}.

Definition snapshot_payload : json :=
  JDict [("date", JStr "2026-02-10"); ("base", JStr "USD");
         ("rates", JDict [("BRL", JFloat 5.12%float); ("EUR", JFloat 0.93%float)])].

(** The client of the smoke test with caching on, an empty cache directory,
    and a service that answers every request with a body without [rates]. *)
Definition sample_client : FrankfurterClient.t :=
  FrankfurterClient.__init__ "https://api.frankfurter.dev/" ".cache/http" 20 true.

Definition empty_world : world := {| files := ∅; trace := [] |}.

Definition rateless_server (url : string) (params : list (string * json))
    : http_response :=
  Response 200 (Some (JDict [("base", JStr "USD")])).

(** ** db.py, continued *)

(** The row [UPSERT_SQL] leaves under the key of [r] at clock reading
    [now], over what was stored there: [created_at] is the stored one, or
    [now] for a new key. *)
Definition written (now : Z) (r : RateRow) (old : option fx_rate) : fx_rate :=
  {| rate := real (row_rate r); source := row_source r;
     fetched_at := row_fetched_at r;
     created_at := from_option created_at now old; updated_at := now |}.

(** What a run of statements leaves under the key [k]: [cell] is what is
    stored there before the [i]-th statement. *)
Fixpoint cell_after (clock : nat → Z) (i : nat) (rows : list RateRow)
    (k : string * string * string) (cell : option fx_rate) : option fx_rate :=
  match rows with
  | [] => cell
  | r :: rows' =>
      cell_after clock (S i) rows' k
        (if decide (rate_key r = k) then Some (written (clock i) r cell)
         else cell)
  end.

(** No run has an [id] above the [AUTOINCREMENT] counter. *)
Definition ids_bounded (db : database) : Prop :=
  ∀ id, is_Some (ingest_runs db !! id) → id ≤ ingest_runs_seq db.

(** No stored rate is a NaN ([rate REAL NOT NULL]). *)
Definition rates_not_null (db : database) : Prop :=
  ∀ k x, fx_rates db !! k = Some x → PrimFloat.is_nan (rate x) = false.

(** A call of the storage engine, and its effect on the database. *)
Inductive db_call : Type :=
  | CallUpsert (clock : nat → Z) (rows : list RateRow)
  | CallStart `{Builtins} (now command_ : string) (args_ : list (string * json))
  | CallFinish (now : string) (run_id : Z) (status_ : string)
      (rows_inserted_ : Z) (error_message_ : option string).

Definition run_call (db : database) (c : db_call) : database :=
  match c with
  | CallUpsert clock rows => (upsert_rates clock db rows).2
  | @CallStart B now command_ args_ =>
      (@start_ingest_run B now db command_ args_).2
  | CallFinish now run_id status_ n msg =>
      (finish_ingest_run now db run_id status_ n msg).2
  end.

(** A row whose rate is no number, as [float("nan")] gives. *)
Definition nan_row : RateRow :=
  {| row_date := "2026-02-10"; row_base := "USD"; row_symbol := "XXX";
     row_rate := PrimFloat.nan; row_source := "frankfurter";
     row_fetched_at := "2026-02-10T00:00:00+00:00" |}.

(** ** api.py, continued *)

(** The base [normalize_payload] works with is [b] upper-cased: the
    override when it is not empty, or else the string under the payload's
    [base]. *)
Definition base_resolves (base : option string) (d : list (string * json))
    (b : string) : Prop :=
  b ≠ "" ∧
  (base = Some b ∨
   ((base = None ∨ base = Some "") ∧ dict_get "base" d = Some (JStr b))).

(** The dates and symbols of a series, date by date and, under a date,
    symbol by symbol, as the dictionaries list them. *)
Definition series_keys (rates : list (string * json)) : list (string * string) :=
  item ← rates;
  match item.2 with
  | JDict per_symbol => (λ kv : string * json, (item.1, upper kv.1)) <$> per_symbol
  | _ => []
  end.

(** The symbols of a series as the payload writes them. *)
Definition series_symbols (rates : list (string * json)) : list string :=
  item ← rates;
  match item.2 with
  | JDict per_symbol => dict_keys per_symbol
  | _ => []
  end.

(** The digits of [hexdigest]. *)
Definition is_hex_digit (c : ascii) : bool :=
  ((48 <=? code c) && (code c <=? 57)) || ((97 <=? code c) && (code c <=? 102)).

(** The series payload of the upstream documentation, a snapshot without
    its date, and a payload that mixes both shapes. *)
Definition series_rates : list (string * json) :=
  [("2026-02-09", JDict [("BRL", JFloat 5.10%float); ("eur", JInt 1)]);
   ("2026-02-10", JDict [("BRL", JFloat 5.12%float)])].

Definition series_items : list (string * json) :=
  [("base", JStr "USD"); ("rates", JDict series_rates)].

Definition snapshot_rates : list (string * json) :=
  [("BRL", JFloat 5.12%float); ("EUR", JFloat 0.93%float)].

Definition snapshot_items : list (string * json) :=
  [("date", JStr "2026-02-10"); ("base", JStr "USD");
   ("rates", JDict snapshot_rates)].

Definition dateless_items : list (string * json) :=
  [("base", JStr "USD"); ("rates", JDict snapshot_rates)].

Definition mixed_rates : list (string * json) :=
  [("2026-02-09", JDict [("BRL", JFloat 5.10%float)]); ("EUR", JFloat 0.93%float)].

Definition mixed_items : list (string * json) :=
  [("base", JStr "USD"); ("rates", JDict mixed_rates)].

(** The query of the smoke test, a service that answers it with the
    snapshot, a client without cache, and a cache directory that holds a
    damaged file for the query. *)
Definition sample_params : list (string * json) :=
  [("base", JStr "USD"); ("symbols", JStr "BRL,EUR")].

Definition snapshot_server (url : string) (params : list (string * json))
    : http_response :=
  Response 200 (Some snapshot_payload).

Definition uncached_client : FrankfurterClient.t :=
  FrankfurterClient.__init__ "https://api.frankfurter.dev" ".cache/http" 20 false.

Definition damaged_world : world :=
  {| files :=
       {[ @FrankfurterClient._cache_file no_builtins sample_client "/v1/latest"
            sample_params := "{" ]};
     trace := [] |}.

(** ** config.py *)

Module Settings.

Record t : Type := {
  api_base_url : string;
  db_path : string;
  cache_dir : string;
  log_file : string;
  log_level : string;
}.

(** [os.getenv(name, default)] over the environment [environ], which is
    the one [load_dotenv] leaves. *)
Definition getenv (environ : gmap string string) (name default : string)
    : string :=
  match environ !! name with
  | Some value => value
  | None => default
  end.

Definition from_env (environ : gmap string string) : t :=
  {| api_base_url :=
       rstrip_slash (getenv environ "API_BASE_URL" "https://api.frankfurter.dev");
     db_path := getenv environ "DB_PATH" "data/fx.sqlite";
     cache_dir := getenv environ "CACHE_DIR" ".cache/http";
     log_file := getenv environ "LOG_FILE" "logs/app.log";
     log_level := getenv environ "LOG_LEVEL" "INFO" |}.

End Settings.

(** ** cli.py *)

(** [raw.split(",")]. *)
Fixpoint split_comma (s : string) : list string :=
  match s with
  | EmptyString => [EmptyString]
  | String c s' =>
      if decide (c = ","%char) then EmptyString :: split_comma s'
      else
        match split_comma s' with
        | [] => [String c EmptyString]
        | piece :: pieces => String c piece :: pieces
        end
  end.

(** What an [argparse] type function does with the text of an argument:
    it returns the value or raises [ArgumentTypeError]. *)
Inductive argument (A : Type) : Type :=
  | Accepted (a : A)
  | ArgumentTypeError (msg : string).
Arguments Accepted {A} a.
Arguments ArgumentTypeError {A} msg.

Definition _parse_symbols (raw : string) : argument (list string) :=
  let symbols :=
    map (fun s => upper (strip s))
        (List.filter (fun s => str_truthy (strip s)) (split_comma raw)) in
  match symbols with
  | [] => ArgumentTypeError "Informe ao menos um symbol em --symbols"
  | _ :: _ => Accepted symbols
  end.

(** The parsed arguments of a subcommand ([daily] has no [start] and
    [end] and does not read them). *)
Module Namespace.

Record t : Type := {
  start : string;
  end_ : string;
  base : string;
  symbols : list string;
  db_path : option string;
  log_level : option string;
  no_cache : bool;
}.

End Namespace.

(** [x or default] for an optional string. *)
Definition or_default (x : option string) (default : string) : string :=
  match x with
  | Some s => if str_truthy s then s else default
  | None => default
  end.

Definition _apply_common_settings (environ : gmap string string)
    (args : Namespace.t) : Settings.t :=
  let base := Settings.from_env environ in
  {| Settings.api_base_url := Settings.api_base_url base;
     Settings.db_path := or_default (Namespace.db_path args) (Settings.db_path base);
     Settings.cache_dir := Settings.cache_dir base;
     Settings.log_file := Settings.log_file base;
     Settings.log_level :=
       or_default (Namespace.log_level args) (Settings.log_level base) |}.

(** What a run takes from outside the process: the environment; what the
    file system answers to making a directory with its parents, to opening
    the log file and to opening the database file, which is the exception
    raised, if any, and is the same for the same path throughout a run;
    the answers of the service; the readings of the clock at the start of
    the run, in the normaliser, in each statement of the upsert and in
    each call that finishes the run; and the text [str(exc)] of an
    exception that a library raised. *)
Record outside : Type := {
  environ : gmap string string;
  mkdir : string → option exn;
  open_log : string → option exn;
  connect : string → option exn;
  server : string → list (string * json) → http_response;
  started_now : string;
  fetched_now : string;
  sql_clock : nat → Z;
  finished_now : nat → string;
  library_text : exn → string;
}.

(** [str(exc)]: the message for an exception raised with one. *)
Definition str_exc (out : outside) (e : exn) : string :=
  match e with
  | ValueError msg | IntegrityError msg | OperationalError msg => msg
  | _ => library_text out e
  end.

Definition raise_if (e : option exn) : result () :=
  match e with
  | Some e => Err e
  | None => Ok ()
  end.

(** The text of [Path(p)] and of [Path(p).parent]. *)
Definition path_text (p : string) : string := Path.str (Path.of_str p).

Definition parent_text (p : string) : string :=
  Path.str (Path.parent (Path.of_str p)).

Definition ensure_runtime_paths (out : outside) (settings : Settings.t)
    : result () :=
  raise_if (mkdir out (parent_text (Settings.db_path settings)));;
  raise_if (mkdir out (path_text (Settings.cache_dir settings)));;
  raise_if (mkdir out (parent_text (Settings.log_file settings))).

(** The names [logging] has a level for. *)
Definition level_names : list string :=
  ["CRITICAL"; "FATAL"; "ERROR"; "WARN"; "WARNING"; "INFO"; "DEBUG"; "NOTSET"].

(** [_configure_logging]: the directory of the log file, the level of the
    root logger, which [setLevel] refuses when it has no such name, and the
    handler that opens the log file. *)
Definition _configure_logging (out : outside) (level log_file : string)
    : result () :=
  raise_if (mkdir out (parent_text log_file));;
  (if bool_decide (upper level ∈ level_names) then Ok ()
   else Err (UnknownLevel (upper level)));;
  raise_if (open_log out log_file).

(** [init_db] with what can go wrong outside: the directory of the file,
    and opening it. *)
Definition init_db_at (out : outside) (db_path : string)
    (file : option database) : result database :=
  raise_if (mkdir out (parent_text db_path));;
  raise_if (connect out db_path);;
  Ok (init_db file).

(** The first lines of [run_backfill] and [run_daily], before the run is
    started: an exception of theirs ends the subcommand. *)
Definition setup (out : outside) (settings : Settings.t)
    (file : option database) : result database :=
  ensure_runtime_paths out settings;;
  _configure_logging out (Settings.log_level settings)
    (Settings.log_file settings);;
  init_db_at out (Settings.db_path settings) file.

Section Runs.
Context `{Builtins}.

(** The handler of the [try] statement: the run is finished with FAIL, no
    rows and the text of the exception, and the subcommand returns 1; an
    exception of the handler leaves the subcommand. *)
Definition failed (out : outside) (now : string) (run_id : Z) (e : exn)
    (db : database) (w : world) : result Z * database * world :=
  match finish_ingest_run now db run_id "FAIL" 0 (Some (str_exc out e)) with
  | (Ok _, db) => (Ok 1, db, w)
  | (Err e, db) => (Err e, db, w)
  end.

(** The [try] statement that [run_backfill] and [run_daily] share once the
    run is started.  The body makes the client, whose constructor makes
    the cache directory, fetches, normalises, upserts and finishes the run
    with OK; the subcommand then returns 0.  An exception of any of these
    steps goes to the handler. *)
Definition ingest (out : outside) (db : database) (w : world) (run_id : Z)
    (client : FrankfurterClient.t) (fetch : world → result json * world)
    (base : string) : result Z * database * world :=
  match mkdir out (path_text (FrankfurterClient.cache_dir client)) with
  | Some e => failed out (finished_now out 0) run_id e db w
  | None =>
      match fetch w with
      | (Err e, w) => failed out (finished_now out 0) run_id e db w
      | (Ok payload, w) =>
          match normalize_payload (fetched_now out) payload (Some base)
                  "frankfurter" None with
          | Err e => failed out (finished_now out 0) run_id e db w
          | Ok rows =>
              match upsert_rates (sql_clock out) db rows with
              | (Err e, db) => failed out (finished_now out 0) run_id e db w
              | (Ok inserted, db) =>
                  match finish_ingest_run (finished_now out 0) db run_id "OK"
                          inserted None with
                  | (Ok _, db) => (Ok 0, db, w)
                  | (Err e, db) =>
                      failed out (finished_now out 1) run_id e db w
                  end
              end
          end
      end
  end.

(** A subcommand: the settings, the steps before the run, the start of
    the run, and the [try] statement.  It gives the exit code or the
    exception that leaves it, the database file, which may still not
    exist, and the world. *)
Definition subcommand (command_ : string)
    (args_ : Namespace.t → list (string * json))
    (fetch : FrankfurterClient.t → outside → Namespace.t → world →
             result json * world)
    (out : outside) (file : option database) (w : world) (args : Namespace.t)
    : result Z * option database * world :=
  let settings := _apply_common_settings (environ out) args in
  match setup out settings file with
  | Err e => (Err e, file, w)
  | Ok db =>
      match start_ingest_run (started_now out) db command_ (args_ args) with
      | (Err e, db) => (Err e, Some db, w)
      | (Ok run_id, db) =>
          let client :=
            FrankfurterClient.__init__ (Settings.api_base_url settings)
              (Settings.cache_dir settings) 20
              (negb (Namespace.no_cache args)) in
          let after :=
            ingest out db w run_id client (fetch client out args)
              (Namespace.base args) in
          (after.1.1, Some after.1.2, after.2)
      end
  end.

Definition run_backfill : outside → option database → world → Namespace.t →
    result Z * option database * world :=
  subcommand "backfill"
    (fun args =>
       [("start", JStr (Namespace.start args));
        ("end", JStr (Namespace.end_ args));
        ("base", JStr (Namespace.base args));
        ("symbols", JList (JStr <$> Namespace.symbols args));
        ("use_cache", JBool (negb (Namespace.no_cache args)))])
    (fun client out args w =>
       FrankfurterClient.fetch_timeseries client (server out) w
         (Namespace.start args) (Namespace.end_ args) (Namespace.base args)
         (Namespace.symbols args)).

Definition run_daily : outside → option database → world → Namespace.t →
    result Z * option database * world :=
  subcommand "daily"
    (fun args =>
       [("base", JStr (Namespace.base args));
        ("symbols", JList (JStr <$> Namespace.symbols args));
        ("use_cache", JBool (negb (Namespace.no_cache args)))])
    (fun client out args w =>
       FrankfurterClient.fetch_latest client (server out) w
         (Namespace.base args) (Namespace.symbols args)).

(** The functions [build_parser] binds to the subcommands with
    [set_defaults(func=...)], which [main] calls. *)
Definition subcommands
    : list (string * (outside → option database → world → Namespace.t →
                      result Z * option database * world)) :=
  [("backfill", run_backfill); ("daily", run_daily)].

End Runs.

(** A piece of text without a comma. *)
Definition comma_free (s : string) : Prop :=
  ","%char ∉ list_ascii_of_string s.


Definition sample_outside : outside :=
  {| environ := ∅;
     mkdir := λ _, None; open_log := λ _, None; connect := λ _, None;
     server := snapshot_server;
     started_now := "2026-02-11T09:30:00+00:00";
     fetched_now := "2026-02-11T09:30:01+00:00";
     sql_clock := λ i, 1770802201 + Z.of_nat i;
     finished_now := λ _, "2026-02-11T09:30:02+00:00";
     library_text := λ _, "error" |}.

(** The same arguments with a log level that [logging] does not know. *)
Definition loud_args : Namespace.t :=
  {| Namespace.start := ""; Namespace.end_ := ""; Namespace.base := "usd";
     Namespace.symbols := ["BRL"; "EUR"]; Namespace.db_path := None;
     Namespace.log_level := Some "loud"; Namespace.no_cache := true |}.

(** * Properties *)

(** ** Storage engine *)

Section Upsert.
Implicit Types (t : gmap (string * string * string) fx_rate).
Implicit Types (m : gmap (string * string * string) (float * string * string)).

Lemma upsert_sql_well_formed now r t :
  well_formed r →
  ∃ t', UPSERT_SQL now r t = Ok t' ∧
        stored_values <$> t' = <[rate_key r := row_values r]> (stored_values <$> t).
Proof.
  intros Hwf. unfold UPSERT_SQL. rewrite Hwf.
  destruct (t !! rate_key r) as [old|]; eexists; (split; [done|]);
    by rewrite fmap_insert.
Qed.

(** The values the batch leaves behind: the rows written one after the
    other, a later row of the same key replacing an earlier one. *)
Lemma executemany_values clock i rows t :
  Forall well_formed rows →
  ∃ t', executemany clock i rows t = Ok t' ∧
        stored_values <$> t' =
          foldl (λ m r, <[rate_key r := row_values r]> m) (stored_values <$> t) rows.
Proof.
  intros Hwf. revert i t.
  induction Hwf as [|r rows Hr _ IH]; intros i t; simpl.
  - by exists t.
  - destruct (upsert_sql_well_formed (clock i) r t Hr) as (t1 & -> & Ht1).
    simpl. destruct (IH (S i) t1) as (t2 & -> & Ht2).
    exists t2. split; [done|]. by rewrite Ht2, Ht1.
Qed.

(** Looking a key up after a run of writes: the last write to that key, or
    what was there before. *)
Lemma lookup_foldl_insert rows m k :
  foldl (λ m r, <[rate_key r := row_values r]> m) m rows !! k =
    foldl (λ acc r, if decide (rate_key r = k) then Some (row_values r) else acc)
          (m !! k) rows.
Proof.
  revert m. induction rows as [|r rows IH]; intros m; simpl; [done|].
  rewrite IH. f_equal. rewrite lookup_insert. by case_decide.
Qed.

Lemma last_write_absorbs rows k :
  (∃ v, ∀ acc,
      foldl (λ acc r, if decide (rate_key r = k) then Some (row_values r) else acc)
            acc rows = Some v) ∨
  (∀ acc,
      foldl (λ acc r, if decide (rate_key r = k) then Some (row_values r) else acc)
            acc rows = acc).
Proof.
  induction rows as [|r rows IH]; simpl; [by right|].
  destruct IH as [[v Hv]|Hid].
  - left. exists v. intros acc. apply Hv.
  - destruct (decide (rate_key r = k)) as [Hk|Hk].
    + left. exists (row_values r). intros acc. by rewrite Hid.
    + right. intros acc. by rewrite Hid.
Qed.

Lemma foldl_insert_twice rows m :
  foldl (λ m r, <[rate_key r := row_values r]> m)
        (foldl (λ m r, <[rate_key r := row_values r]> m) m rows) rows =
  foldl (λ m r, <[rate_key r := row_values r]> m) m rows.
Proof.
  apply map_eq. intros k. rewrite !lookup_foldl_insert.
  destruct (last_write_absorbs rows k) as [[v Hv]|Hid].
  - by rewrite !Hv.
  - by rewrite !Hid.
Qed.

End Upsert.

(** C8.  An empty batch: [upsert_rates] returns 0 and the database it
    returns is the one it was given, every stored row untouched. *)
Theorem upsert_rates_empty clock db :
  upsert_rates clock db [] = (Ok 0, db).
Proof. reflexivity. Qed.

(** C1.  Upsert is idempotent on what it writes.  For well-formed rows,
    running [upsert_rates] a second time with the same rows (whatever the
    clock reads then) leaves [fx_rates] with the same keys and, under each
    key, the same rate, source and fetched_at as after the first run; both
    runs return the length of the input. *)
Theorem upsert_rates_idempotent clock1 clock2 db rows :
  Forall well_formed rows →
  let once := upsert_rates clock1 db rows in
  let twice := upsert_rates clock2 once.2 rows in
  once.1 = Ok (Z.of_nat (length rows)) ∧
  twice.1 = Ok (Z.of_nat (length rows)) ∧
  stored_values <$> fx_rates twice.2 = stored_values <$> fx_rates once.2 ∧
  dom (fx_rates twice.2) = dom (fx_rates once.2) ∧
  ingest_runs twice.2 = ingest_runs once.2.
Proof.
  intros Hwf. cbv zeta. unfold upsert_rates.
  destruct rows as [|r rows]; [done|].
  destruct (executemany_values clock1 0 (r :: rows) (fx_rates db) Hwf)
    as (t1 & -> & Ht1).
  cbn [fst snd with_fx_rates fx_rates ingest_runs].
  destruct (executemany_values clock2 0 (r :: rows) t1 Hwf) as (t2 & -> & Ht2).
  cbn [fst snd with_fx_rates fx_rates ingest_runs].
  assert (stored_values <$> t2 = stored_values <$> t1) as Heq.
  { rewrite Ht2, Ht1. apply foldl_insert_twice. }
  repeat split; [done|].
  by rewrite <-(dom_fmap_L stored_values t2), Heq, dom_fmap_L.
Qed.

Lemma upsert_rates_idempotent_witness :
  Forall well_formed [brl_row; eur_row; brl_row_revised] ∧
  let clock1 := λ i : nat, 1770681600 + Z.of_nat i in
  let clock2 := λ i : nat, 1770768000 + Z.of_nat i in
  let once := upsert_rates clock1 sample_db [brl_row; eur_row; brl_row_revised] in
  let twice := upsert_rates clock2 once.2 [brl_row; eur_row; brl_row_revised] in
  once.1 = Ok 3 ∧ twice.1 = Ok 3 ∧
  stored_values <$> fx_rates twice.2 = stored_values <$> fx_rates once.2 ∧
  dom (fx_rates twice.2) = dom (fx_rates once.2) ∧
  ingest_runs twice.2 = ingest_runs once.2.
Proof.
  split.
  - by repeat constructor.
  - apply (upsert_rates_idempotent _ _ sample_db
             [brl_row; eur_row; brl_row_revised]).
    by repeat constructor.
Defined.

(** C3, as the code has it.  Upsert of a row whose key is already stored
    (its rate different or not): the call returns 1; the stored row takes
    the new rate, as a [REAL] column holds it, and the new source and
    fetched_at; its updated_at becomes the [CURRENT_TIMESTAMP] of the
    statement, whatever it was, and its created_at stays; every other key
    keeps its row, and the table keeps its keys and its number of rows. *)
Theorem upsert_rates_overwrites clock db new old :
  fx_rates db !! rate_key new = Some old →
  well_formed new →
  let after := upsert_rates clock db [new] in
  after.1 = Ok 1 ∧
  fx_rates after.2 !! rate_key new =
    Some {| rate := real (row_rate new); source := row_source new;
            fetched_at := row_fetched_at new;
            created_at := created_at old; updated_at := clock 0%nat |} ∧
  (∀ k, k ≠ rate_key new → fx_rates after.2 !! k = fx_rates db !! k) ∧
  dom (fx_rates after.2) = dom (fx_rates db) ∧
  size (fx_rates after.2) = size (fx_rates db) ∧
  ingest_runs after.2 = ingest_runs db.
Proof.
  intros Hold Hwf. cbv zeta. unfold upsert_rates, executemany, UPSERT_SQL.
  rewrite Hwf, Hold.
  cbn [mbind result_bind fst snd with_fx_rates fx_rates ingest_runs length].
  split; [done|]. split; [by rewrite lookup_insert_eq|].
  split; [by intros k Hk; rewrite lookup_insert_ne|].
  split.
  { apply dom_insert_lookup_L. by exists old. }
  split; [|done].
  by erewrite map_size_insert_Some.
Qed.

Lemma upsert_rates_overwrites_witness :
  let clock := λ i : nat, 1770768000 + Z.of_nat i in
  let after := upsert_rates clock sample_db [brl_row_revised] in
  row_rate brl_row_revised ≠ rate brl_stored ∧
  after.1 = Ok 1 ∧
  fx_rates after.2 !! rate_key brl_row =
    Some {| rate := 5.22%float; source := "frankfurter";
            fetched_at := "2026-02-11T00:00:00+00:00";
            created_at := 1770681600; updated_at := 1770768000 |} ∧
  size (fx_rates after.2) = 1%nat.
Proof.
  pose proof (upsert_rates_overwrites (λ i : nat, 1770768000 + Z.of_nat i)
                sample_db brl_row_revised brl_stored eq_refl eq_refl)
    as (Hn & Hrow & _ & _ & Hsize & _).
  cbv zeta. split; [|split; [exact Hn|split; [exact Hrow|exact Hsize]]].
  intros Heq. apply (f_equal (PrimFloat.eqb 5.12%float)) in Heq.
  vm_compute in Heq. discriminate Heq.
Defined.

(** C3, as the claim has it, fails: updated_at does not always advance.
    The rate of [sample_db] was written at second 1770681600; an upsert
    of a different rate under its key in that same second leaves
    updated_at at the second it held. *)
Lemma upsert_rates_same_second :
  ¬ (∀ clock db new old,
       fx_rates db !! rate_key new = Some old →
       well_formed new →
       row_rate new ≠ rate old →
       ∃ x, fx_rates (upsert_rates clock db [new]).2 !! rate_key new = Some x ∧
            updated_at old < updated_at x).
Proof.
  intros Hclaim.
  destruct (Hclaim (λ _, 1770681600) sample_db brl_row_revised brl_stored
              eq_refl eq_refl) as (x & Hx & Hlt).
  - intros Heq. apply (f_equal (PrimFloat.eqb 5.12%float)) in Heq.
    vm_compute in Heq. discriminate Heq.
  - change (rate_key brl_row_revised) with (rate_key brl_row) in Hx.
    unfold upsert_rates, executemany, UPSERT_SQL, sample_db in Hx.
    cbn [fx_rates row_rate brl_row_revised] in Hx.
    rewrite lookup_singleton_eq in Hx.
    cbn -[real] in Hx. rewrite lookup_insert_eq in Hx.
    injection Hx as <-. simpl in Hlt. lia.
Qed.

(** C10, as the code has it.  [finish_ingest_run] with an identifier that
    [ingest_runs] does not hold leaves the database as it was given; it
    returns without an exception when the identifier and the row count
    are integers of 64 bits, and raises [OverflowError] otherwise. *)
Theorem finish_ingest_run_unknown_id now db run_id status_ n msg :
  ingest_runs db !! run_id = None →
  let after := finish_ingest_run now db run_id status_ n msg in
  after.2 = db ∧
  (int64 n = true → int64 run_id = true → after.1 = Ok ()) ∧
  (int64 n = false ∨ int64 run_id = false → after.1 = Err OverflowError).
Proof.
  intros Hnone. cbv zeta. unfold finish_ingest_run, with_ingest_runs.
  destruct (int64 n) eqn:Hn, (int64 run_id) eqn:Hid; cbn [andb fst snd];
    (split; [|split; [done|by intros [?|?]]]); try done.
  destruct db as [rates runs seq]; simpl in *. f_equal.
  apply map_eq. intros id. rewrite lookup_alter.
  case_decide; [subst; by rewrite Hnone|done].
Qed.

Lemma finish_ingest_run_unknown_id_witness :
  ingest_runs sample_db !! 7 = None ∧
  finish_ingest_run "2026-02-10T00:00:02+00:00" sample_db 7 "FAIL" 0 (Some "boom")
    = (Ok (), sample_db).
Proof.
  split; [reflexivity|].
  destruct (finish_ingest_run_unknown_id "2026-02-10T00:00:02+00:00" sample_db 7
              "FAIL" 0 (Some "boom") eq_refl) as (Hdb & Hok & _).
  rewrite (surjective_pairing (finish_ingest_run _ _ _ _ _ _)).
  by rewrite Hdb, Hok.
Defined.

(** C10, as the claim has it, fails: the identifier 2^63 is in no table,
    and the call raises [OverflowError] instead of returning. *)
Lemma finish_ingest_run_unknown_id_overflow :
  ¬ (∀ now db run_id status_ n msg,
       ingest_runs db !! run_id = None →
       finish_ingest_run now db run_id status_ n msg = (Ok (), db)).
Proof.
  intros Hclaim.
  specialize (Hclaim "2026-02-10T00:00:02+00:00" sample_db (2 ^ 63) "FAIL" 0
                (Some "boom") eq_refl).
  vm_compute in Hclaim. discriminate Hclaim.
Qed.

(** C4, as the code has it.  [finish_ingest_run] looks at no status: for
    every stored run, RUNNING or already OK or FAIL, and every row count
    that is an integer of 64 bits, as the identifier of a stored run is,
    it returns without an exception and the run holds the status,
    finished_at, rows_inserted and error_message of the call; the run's
    command, args and started_at, every other run and the rate table are
    as before. *)
Theorem finish_ingest_run_overwrites now db run_id status_ n msg r :
  ingest_runs db !! run_id = Some r →
  int64 run_id = true →
  int64 n = true →
  let after := finish_ingest_run now db run_id status_ n msg in
  after.1 = Ok () ∧
  ingest_runs after.2 !! run_id =
    Some {| command := command r; args := args r; status := status_;
            started_at := started_at r; finished_at := Some now;
            rows_inserted := n; error_message := msg |} ∧
  (∀ id, id ≠ run_id → ingest_runs after.2 !! id = ingest_runs db !! id) ∧
  fx_rates after.2 = fx_rates db ∧
  ingest_runs_seq after.2 = ingest_runs_seq db.
Proof.
  intros Hr Hid Hn. cbv zeta. unfold finish_ingest_run, with_ingest_runs.
  rewrite Hid, Hn. simpl.
  split; [done|]. split.
  - by rewrite lookup_alter_eq, Hr.
  - split; [|done]. intros id Hne. by rewrite lookup_alter_ne.
Qed.

Lemma finish_ingest_run_overwrites_witness :
  ingest_runs sample_db !! 1 = Some run_ok ∧
  let after :=
    finish_ingest_run "2026-02-10T00:00:02+00:00" sample_db 1 "FAIL" 0
      (Some "boom") in
  after.1 = Ok () ∧
  ingest_runs after.2 !! 1 =
    Some {| command := "daily"; args := Some "{}"; status := "FAIL";
            started_at := "2026-02-10T00:00:00+00:00";
            finished_at := Some "2026-02-10T00:00:02+00:00";
            rows_inserted := 0; error_message := Some "boom" |}.
Proof.
  split; [reflexivity|].
  pose proof (finish_ingest_run_overwrites "2026-02-10T00:00:02+00:00"
                sample_db 1 "FAIL" 0 (Some "boom") run_ok eq_refl eq_refl eq_refl)
    as (Hres & Hrun & _).
  split; [exact Hres|exact Hrun].
Defined.

(** C4, as the claim has it, fails: the run of [sample_db] is in status OK,
    and a second finish is neither rejected nor without effect: it returns
    normally and replaces the run's status, finished_at, rows_inserted and
    error_message. *)
Lemma finish_ingest_run_terminal_not_rejected :
  ¬ (∀ now db run_id status_ n msg r,
       ingest_runs db !! run_id = Some r →
       status r = "OK" ∨ status r = "FAIL" →
       let after := finish_ingest_run now db run_id status_ n msg in
       (∃ e, after.1 = Err e) ∨ ingest_runs after.2 !! run_id = Some r).
Proof.
  intros Hclaim.
  destruct (Hclaim "2026-02-10T00:00:02+00:00" sample_db 1 "FAIL" 0
              (Some "boom") run_ok eq_refl (or_introl eq_refl))
    as [[e He]|Hsame].
  - discriminate He.
  - vm_compute in Hsame. discriminate Hsame.
Qed.

(** ** Strings and the order of keys *)

Lemma str_truthy_true s : str_truthy s = true ↔ s ≠ "".
Proof. destruct s; simpl; split; congruence. Qed.

Lemma str_truthy_false s : str_truthy s = false ↔ s = "".
Proof. destruct s; simpl; split; congruence. Qed.

Lemma upper_nonempty s : s ≠ "" → upper s ≠ "".
Proof. destruct s; simpl; congruence. Qed.

Lemma code_inj c1 c2 : code c1 = code c2 → c1 = c2.
Proof.
  unfold code. intros Heq. apply N2Z.inj in Heq.
  rewrite <-(ascii_N_embedding c1), <-(ascii_N_embedding c2). by rewrite Heq.
Qed.

Lemma str_le_cons c1 s1 c2 s2 :
  str_le (String c1 s1) (String c2 s2) = true ↔
  code c1 < code c2 ∨ (code c1 = code c2 ∧ str_le s1 s2 = true).
Proof.
  simpl.
  destruct (Z.ltb_spec (code c1) (code c2)); [intuition lia|].
  destruct (Z.ltb_spec (code c2) (code c1)); [intuition (done || lia)|].
  intuition lia.
Qed.

Lemma str_le_refl s : str_le s s = true.
Proof. induction s as [|c s IH]; [done|]. apply str_le_cons. auto. Qed.

Lemma str_le_total s1 s2 : str_le s1 s2 = true ∨ str_le s2 s1 = true.
Proof.
  revert s2. induction s1 as [|c1 s1 IH]; intros [|c2 s2]; auto.
  rewrite !str_le_cons.
  destruct (IH s2); destruct (Z.lt_total (code c1) (code c2)) as [|[|]];
    intuition lia.
Qed.

Lemma str_le_antisym s1 s2 :
  str_le s1 s2 = true → str_le s2 s1 = true → s1 = s2.
Proof.
  revert s2. induction s1 as [|c1 s1 IH]; intros [|c2 s2]; try done.
  rewrite !str_le_cons. intros [?|[Hc H1]] [?|[Hc' H2]]; try lia.
  f_equal; [by apply code_inj|by apply IH].
Qed.

Lemma str_le_trans s1 s2 s3 :
  str_le s1 s2 = true → str_le s2 s3 = true → str_le s1 s3 = true.
Proof.
  revert s2 s3.
  induction s1 as [|c1 s1 IH]; intros [|c2 s2] [|c3 s3]; try done.
  rewrite !str_le_cons. intros [?|[? H1]] [?|[? H2]]; try (left; lia).
  right. split; [lia|]. by apply IH with s2.
Qed.

(** ** Sorting the items of a dictionary *)

Section SortItems.
Context {A : Type}.
Implicit Types (x y : string * A) (l : list (string * A)).

Lemma key_le_trans : Transitive (@key_le A).
Proof. intros x y z. unfold key_le. apply str_le_trans. Qed.

Lemma insert_item_perm x l : insert_item x l ≡ₚ x :: l.
Proof.
  induction l as [|y l IH]; simpl; [done|].
  destruct (str_le x.1 y.1); [done|]. by rewrite IH, Permutation_swap.
Qed.

Lemma sort_items_perm l : sort_items l ≡ₚ l.
Proof.
  induction l as [|x l IH]; simpl; [done|].
  by rewrite insert_item_perm, IH.
Qed.

Lemma insert_item_hd x y l :
  key_le y x → HdRel key_le y l → HdRel key_le y (insert_item x l).
Proof.
  intros Hyx Hhd. destruct l as [|z l]; simpl; [by constructor|].
  destruct (str_le x.1 z.1); constructor; [done|]. by inversion Hhd.
Qed.

Lemma insert_item_sorted x l :
  Sorted key_le l → Sorted key_le (insert_item x l).
Proof.
  induction 1 as [|y l Hl IH Hhd]; simpl; [by repeat constructor|].
  destruct (str_le x.1 y.1) eqn:Hxy.
  - constructor; [by constructor|]. by constructor.
  - constructor; [done|]. apply insert_item_hd; [|done].
    unfold key_le. by destruct (str_le_total x.1 y.1) as [Hle|Hle]; [congruence|].
Qed.

Lemma sort_items_sorted l : Sorted key_le (sort_items l).
Proof.
  induction l as [|x l IH]; simpl; [constructor|]. by apply insert_item_sorted.
Qed.

Lemma nodup_keys_value l k (v1 v2 : A) :
  NoDup l.*1 → (k, v1) ∈ l → (k, v2) ∈ l → v1 = v2.
Proof.
  induction l as [|[k' v'] l IH]; csimpl; intros Hnd H1 H2.
  { by apply elem_of_nil in H1. }
  apply NoDup_cons in Hnd as [Hk' Hnd].
  apply elem_of_cons in H1 as [H1|H1], H2 as [H2|H2]; simplify_eq; auto.
  - destruct Hk'. apply list_elem_of_fmap. by exists (k', v2).
  - destruct Hk'. apply list_elem_of_fmap. by exists (k', v1).
Qed.

(** With no key twice, the sorted list depends on the items only, not on
    the order they came in. *)
Lemma sort_items_unique l1 l2 :
  NoDup l1.*1 → l1 ≡ₚ l2 → sort_items l1 = sort_items l2.
Proof.
  intros Hnd Hperm. pose proof key_le_trans as Htrans.
  apply (Sorted_unique_strong key_le); [|apply sort_items_sorted..|].
  - intros [k1 v1] [k2 v2] H1 H2 Hle Hge. unfold key_le in *; simpl in *.
    rewrite sort_items_perm in H1. rewrite sort_items_perm, <-Hperm in H2.
    assert (k1 = k2) as -> by by apply str_le_antisym.
    f_equal. by eapply nodup_keys_value.
  - by rewrite !sort_items_perm.
Qed.

(** Keys that are distinct are sorted strictly. *)
Lemma sorted_strict l :
  StronglySorted key_le l → NoDup l.*1 → Sorted key_lt l.
Proof.
  induction 1 as [|x s Hs IH Hall]; csimpl; intros Hnd; [constructor|].
  apply NoDup_cons in Hnd as [Hx Hnd].
  constructor; [by apply IH|].
  destruct s as [|y s]; constructor.
  split; [by inversion Hall|].
  intros Heq. apply Hx. rewrite Heq. csimpl. left.
Qed.

Lemma sort_items_strict l : NoDup l.*1 → Sorted key_lt (sort_items l).
Proof.
  intros Hnd. apply sorted_strict.
  - apply Sorted_StronglySorted; [apply key_le_trans|apply sort_items_sorted].
  - by rewrite sort_items_perm.
Qed.

End SortItems.

(** Sorting looks at the keys only: it commutes with a map over the values. *)
Lemma insert_item_map_values {A B} (g : A → B) (x : string * A) l :
  insert_item (x.1, g x.2) (map (λ kv, (kv.1, g kv.2)) l) =
  map (λ kv, (kv.1, g kv.2)) (insert_item x l).
Proof.
  induction l as [|y l IH]; simpl; [done|].
  destruct (str_le x.1 y.1); simpl; [done|]. by rewrite IH.
Qed.

Lemma sort_items_map_values {A B} (g : A → B) (l : list (string * A)) :
  sort_items (map (λ kv, (kv.1, g kv.2)) l) =
  map (λ kv, (kv.1, g kv.2)) (sort_items l).
Proof.
  induction l as [|x l IH]; simpl; [done|].
  by rewrite IH, insert_item_map_values.
Qed.

(** Induction on a JSON value, through the lists it nests. *)
Lemma json_nested_ind (P : json → Prop) :
  P JNull → (∀ b, P (JBool b)) → (∀ z, P (JInt z)) → (∀ f, P (JFloat f)) →
  (∀ s, P (JStr s)) →
  (∀ l, Forall P l → P (JList l)) →
  (∀ d, Forall (λ kv, P kv.2) d → P (JDict d)) →
  ∀ v, P v.
Proof.
  intros Hnull Hbool Hint Hfloat Hstr Hlist Hdict.
  fix IH 1. intros [ |b|z|f|s|l|d].
  - apply Hnull.
  - apply Hbool.
  - apply Hint.
  - apply Hfloat.
  - apply Hstr.
  - apply Hlist. induction l as [|v l IHl]; constructor; [apply IH|apply IHl].
  - apply Hdict. induction d as [|[k v] d IHd]; constructor; [apply IH|apply IHd].
Qed.

Section CacheKey.
Context `{Builtins}.

(** The text [sort_keys=True] produces is the plain text of the canonical
    form. *)
Lemma json_dumps_canonical v :
  json_dumps true v = json_dumps false (canonical v).
Proof.
  induction v as [ | | | | |l IH|d IH] using json_nested_ind; try done.
  - simpl. do 3 f_equal. rewrite map_map.
    induction IH as [|v l Hv _ IHl]; simpl; [done|]. by rewrite Hv, IHl.
  - simpl. do 4 f_equal.
    rewrite (sort_items_map_values canonical).
    rewrite (sort_items_map_values (json_dumps true)).
    rewrite map_map. simpl.
    assert (Forall (λ kv : string * json,
                      json_dumps true kv.2 = json_dumps false (canonical kv.2))
                   (sort_items d)) as IH'.
    { by rewrite sort_items_perm. }
    induction IH' as [|kv s Hkv _ IHs]; simpl; [done|]. by rewrite Hkv, IHs.
Qed.

Lemma canonical_perm d1 d2 :
  dict_wf d1 → d1 ≡ₚ d2 → canonical (JDict d1) = canonical (JDict d2).
Proof.
  intros Hwf Hperm. simpl. f_equal. apply sort_items_unique.
  - unfold dict_wf, dict_keys in Hwf.
    by rewrite <-list_fmap_compose.
  - by apply Permutation_map.
Qed.

Lemma canonical_request endpoint params :
  canonical (JDict [("endpoint", JStr endpoint); ("params", JDict params)]) =
  JDict [("endpoint", JStr endpoint); ("params", canonical (JDict params))].
Proof. reflexivity. Qed.

(** C2.  The cache key does not see the insertion order.  For two
    parameter dictionaries with the same items (no key twice) in different
    orders, [_cache_key] returns the same fingerprint; and the fingerprint is
    the hexadecimal SHA-256 of the UTF-8 bytes of one canonical text, the
    plain serialisation of the request with its parameters in strictly
    increasing order of their names. *)
Theorem cache_key_insertion_order endpoint params1 params2 :
  dict_wf params1 →
  params1 ≡ₚ params2 →
  FrankfurterClient._cache_key endpoint params1 =
    FrankfurterClient._cache_key endpoint params2 ∧
  ∃ sorted,
    canonical (JDict params1) = JDict sorted ∧
    canonical (JDict params2) = JDict sorted ∧
    Sorted key_lt sorted ∧
    dict_keys sorted ≡ₚ dict_keys params1 ∧
    FrankfurterClient._cache_key endpoint params1 =
      sha256_hexdigest
        (utf8_encode
           (json_dumps false
              (JDict [("endpoint", JStr endpoint); ("params", JDict sorted)]))).
Proof.
  intros Hwf Hperm.
  pose proof (canonical_perm _ _ Hwf Hperm) as Hcanon.
  assert (∀ params,
            FrankfurterClient._cache_key endpoint params =
            sha256_hexdigest
              (utf8_encode
                 (json_dumps false
                    (JDict [("endpoint", JStr endpoint);
                            ("params", canonical (JDict params))])))) as Hkey.
  { intros params. unfold FrankfurterClient._cache_key.
    by rewrite json_dumps_canonical, canonical_request. }
  split; [by rewrite !Hkey, Hcanon|].
  exists (sort_items (map (λ kv : string * json, (kv.1, canonical kv.2)) params1)).
  split; [done|]. split; [by rewrite <-Hcanon|].
  assert ((map (λ kv : string * json, (kv.1, canonical kv.2)) params1).*1
          = params1.*1) as Hkeys.
  { by rewrite <-list_fmap_compose. }
  unfold dict_wf, dict_keys in *. split; [|split].
  - apply sort_items_strict. by rewrite Hkeys.
  - by rewrite sort_items_perm, Hkeys.
  - apply Hkey.
Qed.

End CacheKey.

Lemma cache_key_insertion_order_witness :
  dict_wf [("base", JStr "USD"); ("symbols", JStr "BRL,EUR")] ∧
  [("base", JStr "USD"); ("symbols", JStr "BRL,EUR")]
    ≡ₚ [("symbols", JStr "BRL,EUR"); ("base", JStr "USD")] ∧
  @FrankfurterClient._cache_key no_builtins "/v1/latest"
    [("base", JStr "USD"); ("symbols", JStr "BRL,EUR")] =
  @FrankfurterClient._cache_key no_builtins "/v1/latest"
    [("symbols", JStr "BRL,EUR"); ("base", JStr "USD")].
Proof.
  assert (dict_wf [("base", JStr "USD"); ("symbols", JStr "BRL,EUR")]) as Hwf.
  { unfold dict_wf, dict_keys. csimpl.
    apply NoDup_cons_2; [|apply NoDup_singleton].
    rewrite list_elem_of_singleton. discriminate. }
  assert ([("base", JStr "USD"); ("symbols", JStr "BRL,EUR")]
            ≡ₚ [("symbols", JStr "BRL,EUR"); ("base", JStr "USD")]) as Hperm.
  { apply Permutation_swap. }
  split; [exact Hwf|]. split; [exact Hperm|].
  exact (proj1 (@cache_key_insertion_order no_builtins "/v1/latest" _ _ Hwf Hperm)).
Defined.

(** The key of the request the smoke test issues, as Python computes it. *)
Example cache_key_latest :
  @FrankfurterClient._cache_key no_builtins "/v1/latest"
    [("symbols", JStr "BRL,EUR"); ("base", JStr "USD")] =
  "ded1c97ba26bab3e8e826c1663058fb5811b4f47fcb8bb169dbead4c1f1e6b31".
Proof. vm_compute. reflexivity. Qed.

(** ** Validation and normalisation *)

Lemma validate_payload_ok payload :
  _validate_payload payload = Ok () ↔
  ∃ d rates, payload = JDict d ∧ dict_get "rates" d = Some (JDict rates).
Proof.
  split.
  - destruct payload as [ | | | | | |d]; simpl; try done.
    destruct (dict_get "rates" d) as [[ | | | | | |rates]|] eqn:Hrates; try done.
    intros _. by exists d, rates.
  - intros (d & rates & -> & Hrates). simpl. by rewrite Hrates.
Qed.

(** What the validator raises is a [ValueError] of the package. *)
Lemma validate_payload_err payload :
  _validate_payload payload ≠ Ok () →
  ∃ msg, _validate_payload payload = Err (ValueError msg).
Proof.
  destruct payload as [ | | | | | |d]; simpl; eauto.
  destruct (dict_get "rates" d) as [[ | | | | | |rates]|]; eauto. done.
Qed.

Section Normalize.
Context `{Builtins}.

Lemma normalize_payload_invalid now payload base source fetched_at e :
  _validate_payload payload = Err e →
  normalize_payload now payload base source fetched_at = Err e.
Proof. intros Hv. unfold normalize_payload. by rewrite Hv. Qed.

Lemma base_value_override b d :
  b ≠ "" → base_value (Some b) d = Ok (upper b).
Proof. intros Hb. unfold base_value. by destruct b. Qed.

Lemma base_value_payload base b d :
  base = None ∨ base = Some "" →
  dict_get "base" d = Some (JStr b) →
  b ≠ "" →
  base_value base d = Ok (upper b).
Proof.
  intros Hbase Hd Hb. unfold base_value. rewrite Hd.
  destruct Hbase as [-> | ->]; simpl; by destruct b.
Qed.

(** C9, as the code has it.  A payload whose [rates] is the empty
    dictionary, normalised with a base that resolves (a non-empty override,
    or else a non-empty string under the payload's [base]): the result is
    the empty list of rows, whether the payload has a [date] or not. *)
Theorem normalize_payload_empty_rates now d base source fetched_at b :
  dict_get "rates" d = Some (JDict []) →
  base = Some b ∨
    ((base = None ∨ base = Some "") ∧ dict_get "base" d = Some (JStr b)) →
  b ≠ "" →
  normalize_payload now (JDict d) base source fetched_at = Ok [].
Proof.
  intros Hrates Hbase Hb.
  assert (base_value base d = Ok (upper b)) as Hbv.
  { destruct Hbase as [-> | [Hnone Hd]];
      [by apply base_value_override|by apply base_value_payload]. }
  unfold normalize_payload. simpl. rewrite Hrates. simpl. rewrite Hbv. simpl.
  pose proof (upper_nonempty b Hb) as Hu. apply str_truthy_true in Hu.
  by rewrite Hu.
Qed.

(** C6, as the code has it.  The snapshot payload of the smoke test,
    normalised with base override USD, any source and a non-empty
    fetched_at: exactly two rows, BRL then EUR, with the payload's date and
    the caller's source and fetched_at. *)
Theorem normalize_payload_snapshot now source fetched_at :
  fetched_at ≠ "" →
  normalize_payload now snapshot_payload (Some "USD") source (Some fetched_at) =
  Ok [ {| row_date := "2026-02-10"; row_base := "USD"; row_symbol := "BRL";
          row_rate := 5.12%float; row_source := source;
          row_fetched_at := fetched_at |};
       {| row_date := "2026-02-10"; row_base := "USD"; row_symbol := "EUR";
          row_rate := 0.93%float; row_source := source;
          row_fetched_at := fetched_at |} ].
Proof. intros Hts. by destruct fetched_at. Qed.

End Normalize.

Lemma normalize_payload_empty_rates_witness :
  dict_get "rates" [("rates", JDict [])] = Some (JDict []) ∧
  @normalize_payload no_builtins "2026-02-11T09:30:00+00:00"
    (JDict [("rates", JDict [])]) (Some "usd") "frankfurter" None = Ok [].
Proof.
  split; [reflexivity|].
  apply (@normalize_payload_empty_rates no_builtins _ _ _ _ _ "usd");
    [reflexivity|by left|done].
Defined.

(** C9, as the claim has it, fails: the payload [{"rates": {}}] passes the
    validator and has empty rates, and without a base override its
    normalisation raises "Payload sem base valida." *)
Lemma normalize_payload_empty_rates_no_base :
  ¬ (∀ (B : Builtins) now payload d base source fetched_at,
       payload = JDict d →
       _validate_payload payload = Ok () →
       dict_get "rates" d = Some (JDict []) →
       normalize_payload now payload base source fetched_at = Ok []).
Proof.
  intros Hclaim.
  specialize (Hclaim no_builtins "2026-02-11T09:30:00+00:00"
                (JDict [("rates", JDict [])]) [("rates", JDict [])]
                None "frankfurter" None eq_refl eq_refl eq_refl).
  discriminate Hclaim.
Qed.

Lemma normalize_payload_snapshot_witness :
  @normalize_payload no_builtins "2026-02-11T09:30:00+00:00" snapshot_payload
    (Some "USD") "frankfurter" (Some "2026-02-10T00:00:00Z") =
  Ok [ {| row_date := "2026-02-10"; row_base := "USD"; row_symbol := "BRL";
          row_rate := 5.12%float; row_source := "frankfurter";
          row_fetched_at := "2026-02-10T00:00:00Z" |};
       {| row_date := "2026-02-10"; row_base := "USD"; row_symbol := "EUR";
          row_rate := 0.93%float; row_source := "frankfurter";
          row_fetched_at := "2026-02-10T00:00:00Z" |} ].
Proof.
  by apply (@normalize_payload_snapshot no_builtins).
Defined.

(** C6, as the claim has it, fails for the empty fetched_at: [fetched_at or
    now] takes the clock, so the rows carry the time of the call and not
    the empty string that was supplied. *)
Lemma normalize_payload_snapshot_empty_fetched_at :
  ¬ (∀ (B : Builtins) now source fetched_at,
       normalize_payload now snapshot_payload (Some "USD") source
         (Some fetched_at) =
       Ok [ {| row_date := "2026-02-10"; row_base := "USD";
               row_symbol := "BRL"; row_rate := 5.12%float;
               row_source := source; row_fetched_at := fetched_at |};
            {| row_date := "2026-02-10"; row_base := "USD";
               row_symbol := "EUR"; row_rate := 0.93%float;
               row_source := source; row_fetched_at := fetched_at |} ]).
Proof.
  intros Hclaim.
  specialize (Hclaim no_builtins "2026-02-11T09:30:00+00:00" "frankfurter" "").
  discriminate Hclaim.
Qed.

(** ** The client *)

Lemma clean_symbols_blank symbols :
  Forall (λ s, strip s = "") symbols →
  _clean_symbols symbols = Err (ValueError "Informe ao menos um symbol.").
Proof.
  intros Hblank. unfold _clean_symbols.
  replace (List.filter (λ s, str_truthy (strip s)) symbols) with (@nil string);
    [done|].
  induction Hblank as [|s symbols Hs _ IH]; simpl; [done|].
  by rewrite Hs.
Qed.

Lemma clean_symbols_some symbols :
  Exists (λ s, strip s ≠ "") symbols →
  _clean_symbols symbols =
    Ok ((λ s, upper (strip s)) <$> filter (λ s, strip s ≠ "") symbols).
Proof.
  intros Hsome. unfold _clean_symbols.
  assert (List.filter (λ s, str_truthy (strip s)) symbols
          = filter (λ s, strip s ≠ "") symbols) as ->.
  { clear Hsome. induction symbols as [|s symbols IH]; simpl; [done|].
    rewrite filter_cons, IH.
    destruct (decide (strip s ≠ "")) as [Hs|Hs].
    - apply str_truthy_true in Hs. by rewrite Hs.
    - apply dec_stable, str_truthy_false in Hs. by rewrite Hs. }
  assert (filter (λ s, strip s ≠ "") symbols ≠ []) as Hne.
  { apply Exists_exists in Hsome as (s & Hin & Hs).
    intros Hnil. apply (elem_of_nil s). rewrite <-Hnil.
    by apply list_elem_of_filter. }
  by destruct (filter (λ s, strip s ≠ "") symbols).
Qed.

Section Client.
Context `{Builtins}.
Import FrankfurterClient.

(** C7.  Symbols that are all blank once trimmed (the empty list among
    them): both fetches raise the [ValueError] of [_clean_symbols] and
    return the world they were given, so that no file of the cache was
    looked at or written and no request was sent.  With a symbol that is
    not blank, and a base and symbols whose upper case the model has,
    both fetches are [_get_json] on the query built from the upper-cased
    base and the trimmed, upper-cased, non-blank symbols joined by
    commas. *)
Theorem fetch_symbols self server w start end_ base symbols :
  (Forall (λ s, strip s = "") symbols →
   fetch_latest self server w base symbols =
     (Err (ValueError "Informe ao menos um symbol."), w) ∧
   fetch_timeseries self server w start end_ base symbols =
     (Err (ValueError "Informe ao menos um symbol."), w)) ∧
  (Exists (λ s, strip s ≠ "") symbols →
   has_upper base = true →
   Forall (λ s, has_upper s = true) symbols →
   let codes := (λ s, upper (strip s)) <$> filter (λ s, strip s ≠ "") symbols in
   let params := [("base", JStr (upper base)); ("symbols", JStr (join "," codes))] in
   fetch_latest self server w base symbols =
     _get_json self server w "/v1/latest" params ∧
   fetch_timeseries self server w start end_ base symbols =
     _get_json self server w ("/v1/" +:+ start +:+ ".." +:+ end_) params).
Proof.
  unfold fetch_latest, fetch_timeseries. split.
  - intros Hblank. by rewrite (clean_symbols_blank symbols Hblank).
  - intros Hsome _ _. by rewrite (clean_symbols_some symbols Hsome).
Qed.

(** A list of events without a write. *)
Ltac no_cache_write :=
  let Hin := fresh "Hin" in
  intros ? ?; rewrite !elem_of_cons, elem_of_nil; intros Hin;
  repeat (destruct Hin as [Hin|Hin]; [discriminate Hin|]); destruct Hin.

(** C5.  One call of [_get_json], and the events it adds to the trace.
    When the service is asked (caching off, or no file for the query) and
    answers, with a status that is no error, a body that is no dictionary,
    or has no [rates], or whose [rates] is no dictionary, the call raises
    the validator's [ValueError], the files of the cache are as before, no
    write is among the events, and normalising that body raises the same
    error instead of returning rows.  And whenever a write is among the
    events, it is the one write of the text of the payload the call
    returns, which passed the validator. *)
Theorem get_json_caches_validated self server w endpoint params :
  let after := _get_json self server w endpoint params in
  let cache_file := _cache_file self endpoint params in
  ∃ events, trace after.2 = trace w ++ events ∧
    (∀ status_code payload,
       use_cache self = false ∨ files w !! cache_file = None →
       server (base_url self +:+ endpoint) params
         = Response status_code (Some payload) →
       ¬ (400 ≤ status_code < 600) →
       ¬ (∃ d rates, payload = JDict d ∧ dict_get "rates" d = Some (JDict rates)) →
       ∃ msg, after.1 = Err (ValueError msg) ∧
              files after.2 = files w ∧
              (∀ path text, CacheWrite path text ∉ events) ∧
              ∀ now base source fetched_at,
                normalize_payload now payload base source fetched_at
                  = Err (ValueError msg)) ∧
    (∀ path text, CacheWrite path text ∈ events →
       ∃ payload, _validate_payload payload = Ok () ∧
                  after.1 = Ok payload ∧
                  path = cache_file ∧ text = json_dumps false payload ∧
                  files after.2 = <[path := text]> (files w)) ∧
    ((∀ path text, CacheWrite path text ∉ events) → files after.2 = files w).
Proof.
  cbv zeta. unfold _get_json.
  set (cache_file := _cache_file self endpoint params).
  set (url := base_url self +:+ endpoint).
  destruct (use_cache self) eqn:Hcache.
  - (* caching on *)
    cbn [files log].
    destruct (files w !! cache_file) as [text|] eqn:Hfile.
    + (* the file is there: it is read, nothing is fetched *)
      exists [CacheExists cache_file; CacheRead cache_file].
      cbn [fst snd files trace log]. rewrite <-app_assoc.
      split; [done|]. split; [|split; [|done]].
      * intros status_code payload [?|?]; congruence.
      * no_cache_write.
    + destruct (server url params) as [|status_code body] eqn:Hserver.
      { exists [CacheExists cache_file; HttpGet url params (timeout_seconds self)].
        cbn [fst snd files trace log]. rewrite <-app_assoc.
        split; [done|]. split; [|split; [|done]].
        - intros ????; congruence.
        - no_cache_write. }
      destruct ((400 <=? status_code) && (status_code <? 600)) eqn:Hstatus.
      { exists [CacheExists cache_file; HttpGet url params (timeout_seconds self)].
        cbn [fst snd files trace log]. rewrite <-app_assoc.
        split; [done|]. split; [|split; [|done]].
        - intros sc payload _ [= <- _] Hsc.
          apply andb_true_iff in Hstatus as [?%Z.leb_le ?%Z.ltb_lt]. lia.
        - no_cache_write. }
      destruct body as [payload|].
      2:{ exists [CacheExists cache_file; HttpGet url params (timeout_seconds self)].
          cbn [fst snd files trace log]. rewrite <-app_assoc.
          split; [done|]. split; [|split; [|done]].
          - intros ????; congruence.
          - no_cache_write. }
      destruct (_validate_payload payload) as [[]|e] eqn:Hvalid.
      * exists [CacheExists cache_file; HttpGet url params (timeout_seconds self);
                CacheWrite cache_file (json_dumps false payload)].
        cbn [fst snd files trace log write_text]. rewrite <-!app_assoc.
        split; [done|]. split; [|split].
        -- intros sc payload' _ [= <- <-] _ Hinvalid.
           destruct Hinvalid. by apply validate_payload_ok.
        -- intros path text'. rewrite !elem_of_cons, elem_of_nil.
           intros [?|[?|[[= -> ->]|[]]]]; try done. by exists payload.
        -- intros Hnone. destruct (Hnone cache_file (json_dumps false payload)).
           rewrite !elem_of_cons. auto.
      * exists [CacheExists cache_file; HttpGet url params (timeout_seconds self)].
        cbn [fst snd files trace log]. rewrite <-app_assoc.
        split; [done|]. split; [|split; [|done]].
        -- intros sc payload' _ [= <- <-] _ _.
           destruct (validate_payload_err payload) as [msg Hmsg]; [congruence|].
           exists msg. rewrite Hmsg in Hvalid. injection Hvalid as <-.
           split; [done|]. split; [done|]. split.
           ++ no_cache_write.
           ++ intros. by apply normalize_payload_invalid.
        -- no_cache_write.
  - (* caching off: the service is asked, nothing is read or written *)
    destruct (server url params) as [|status_code body] eqn:Hserver.
    { exists [HttpGet url params (timeout_seconds self)].
      cbn [fst snd files trace log].
      split; [done|]. split; [|split; [|done]].
      - intros ????; congruence.
      - no_cache_write. }
    destruct ((400 <=? status_code) && (status_code <? 600)) eqn:Hstatus.
    { exists [HttpGet url params (timeout_seconds self)].
      cbn [fst snd files trace log].
      split; [done|]. split; [|split; [|done]].
      - intros sc payload _ [= <- _] Hsc.
          apply andb_true_iff in Hstatus as [?%Z.leb_le ?%Z.ltb_lt]. lia.
      - no_cache_write. }
    destruct body as [payload|].
    2:{ exists [HttpGet url params (timeout_seconds self)].
        cbn [fst snd files trace log].
        split; [done|]. split; [|split; [|done]].
        - intros ????; congruence.
        - no_cache_write. }
    exists [HttpGet url params (timeout_seconds self)].
    destruct (_validate_payload payload) as [[]|e] eqn:Hvalid;
      cbn [fst snd files trace log];
      (split; [done|]); (split; [|split; [|done]]).
    + intros sc payload' _ [= <- <-] _ Hinvalid.
      destruct Hinvalid. by apply validate_payload_ok.
    + no_cache_write.
    + intros sc payload' _ [= <- <-] _ _.
      destruct (validate_payload_err payload) as [msg Hmsg]; [congruence|].
      exists msg. rewrite Hmsg in Hvalid. injection Hvalid as <-.
      split; [done|]. split; [done|]. split.
      * no_cache_write.
      * intros. by apply normalize_payload_invalid.
    + no_cache_write.
Qed.

End Client.

Lemma fetch_symbols_witness :
  Forall (λ s, strip s = "") ["  "; ""] ∧
  @FrankfurterClient.fetch_latest no_builtins sample_client rateless_server
    empty_world "usd" ["  "; ""] =
    (Err (ValueError "Informe ao menos um symbol."), empty_world) ∧
  Exists (λ s, strip s ≠ "") [" brl"; ""; "eur "] ∧
  @FrankfurterClient.fetch_latest no_builtins sample_client rateless_server
    empty_world "usd" [" brl"; ""; "eur "] =
  @FrankfurterClient._get_json no_builtins sample_client rateless_server
    empty_world "/v1/latest"
    [("base", JStr "USD"); ("symbols", JStr "BRL,EUR")].
Proof.
  assert (Forall (λ s, strip s = "") ["  "; ""]) as Hblank
    by (by repeat constructor).
  assert (Exists (λ s, strip s ≠ "") [" brl"; ""; "eur "]) as Hsome
    by (by left).
  pose proof (@fetch_symbols no_builtins sample_client rateless_server
                empty_world "2026-02-01" "2026-02-10" "usd") as Hfetch.
  split; [exact Hblank|]. split.
  - exact (proj1 (proj1 (Hfetch ["  "; ""]) Hblank)).
  - split; [exact Hsome|].
    refine (proj1 (proj2 (Hfetch [" brl"; ""; "eur "]) Hsome eq_refl _)).
    by repeat constructor.
Defined.

Lemma get_json_caches_validated_witness :
  let after :=
    @FrankfurterClient._get_json no_builtins sample_client rateless_server
      empty_world "/v1/latest"
      [("base", JStr "USD"); ("symbols", JStr "BRL,EUR")] in
  ∃ msg, after.1 = Err (ValueError msg) ∧ files after.2 = ∅.
Proof.
  cbv zeta.
  destruct (@get_json_caches_validated no_builtins sample_client rateless_server
              empty_world "/v1/latest"
              [("base", JStr "USD"); ("symbols", JStr "BRL,EUR")])
    as (events & _ & Hinvalid & _).
  destruct (Hinvalid 200 (JDict [("base", JStr "USD")]))
    as (msg & Hres & Hfiles & _).
  - by right.
  - reflexivity.
  - lia.
  - intros (d & rates & [= <-] & Hrates). discriminate Hrates.
  - exists msg. split; [exact Hres|exact Hfiles].
Defined.

(** ** The model against the Python interpreter *)

Example sha256_abc :
  sha256_hexdigest (utf8_encode "abc") =
  "ba7816bf8f01cfea414140de5dae2223b00361a396177a9cb410ff61f20015ad".
Proof. vm_compute. reflexivity. Qed.

Example sha256_two_blocks :
  sha256_hexdigest
    (utf8_encode "abcdbcdecdefdefgefghfghighijhijkijkljklmklmnlmnomnopnopq") =
  "248d6a61d20638b8e5c026930c3e6039a33ce45964ff2167f6ecedd419db06c1".
Proof. vm_compute. reflexivity. Qed.

Example json_dumps_sorted :
  @json_dumps no_builtins true
    (JDict [("b", JList [JInt 1; JNull; JBool true; JDict []; JList []]);
            ("a", JStr "x/y")]) =
  String "{" (String "034" ("a" +:+ String "034" (": " +:+ String "034"
    ("x/y" +:+ String "034" (", " +:+ String "034" ("b" +:+ String "034"
    ": [1, null, true, {}, []]}")))))).
Proof. vm_compute. reflexivity. Qed.

Example clean_symbols_smoke :
  _clean_symbols [" brl"; ""; "eur "] = Ok ["BRL"; "EUR"].
Proof. reflexivity. Qed.

Example float_of_int_overflow :
  float_of_int (2 ^ 1024) = Err OverflowError ∧ float_of_int 3 = Ok 3%float.
Proof. split; vm_compute; reflexivity. Qed.

(** The series payload of the specification: one row per date. *)
Example normalize_payload_series :
  @normalize_payload no_builtins "2026-02-11T09:30:00+00:00"
    (JDict [("base", JStr "USD");
            ("rates", JDict [("2026-02-09", JDict [("BRL", JFloat 5.10%float)]);
                             ("2026-02-10", JDict [("BRL", JFloat 5.12%float)])])])
    None "frankfurter" None =
  Ok [ {| row_date := "2026-02-09"; row_base := "USD"; row_symbol := "BRL";
          row_rate := 5.10%float; row_source := "frankfurter";
          row_fetched_at := "2026-02-11T09:30:00+00:00" |};
       {| row_date := "2026-02-10"; row_base := "USD"; row_symbol := "BRL";
          row_rate := 5.12%float; row_source := "frankfurter";
          row_fetched_at := "2026-02-11T09:30:00+00:00" |} ].
Proof. reflexivity. Qed.

(** ** The storage engine, beyond single upserts *)

Section Batch.
Implicit Types (t : gmap (string * string * string) fx_rate).

Lemma UPSERT_SQL_written now r t :
  well_formed r →
  UPSERT_SQL now r t = Ok (<[rate_key r := written now r (t !! rate_key r)]> t).
Proof.
  intros Hwf. unfold UPSERT_SQL, written. rewrite Hwf.
  by destruct (t !! rate_key r).
Qed.

Lemma UPSERT_SQL_nan now r t :
  PrimFloat.is_nan (row_rate r) = true →
  UPSERT_SQL now r t =
    Err (IntegrityError "NOT NULL constraint failed: fx_rates.rate").
Proof. intros Hnan. unfold UPSERT_SQL. by rewrite Hnan. Qed.

(** The table after a batch, key by key. *)
Lemma executemany_cells clock i rows t :
  Forall well_formed rows →
  ∃ t', executemany clock i rows t = Ok t' ∧
        ∀ k, t' !! k = cell_after clock i rows k (t !! k).
Proof.
  intros Hwf. revert i t.
  induction Hwf as [|r rows Hr _ IH]; intros i t; simpl.
  - by exists t.
  - rewrite (UPSERT_SQL_written _ _ _ Hr). simpl.
    destruct (IH (S i) (<[rate_key r := written (clock i) r (t !! rate_key r)]> t))
      as (t' & -> & Hcells).
    exists t'. split; [done|]. intros k. rewrite Hcells. f_equal.
    rewrite lookup_insert. case_decide; by subst.
Qed.

Lemma executemany_nan clock i rows t :
  Exists (λ r, PrimFloat.is_nan (row_rate r) = true) rows →
  executemany clock i rows t =
    Err (IntegrityError "NOT NULL constraint failed: fx_rates.rate").
Proof.
  intros Hnan. revert i t.
  induction rows as [|r rows IH]; intros i t; [by inversion Hnan|].
  simpl. destruct (PrimFloat.is_nan (row_rate r)) eqn:Hr.
  - by rewrite (UPSERT_SQL_nan _ _ _ Hr).
  - rewrite (UPSERT_SQL_written _ _ _ Hr). simpl. apply IH.
    inversion Hnan as [? ? Hhd|]; subst; [congruence|done].
Qed.

Lemma cell_after_absent clock i rows k cell :
  k ∉ rate_key <$> rows → cell_after clock i rows k cell = cell.
Proof.
  revert i cell. induction rows as [|r rows IH]; intros i cell; [done|].
  csimpl. rewrite not_elem_of_cons. intros [Hk Hrest].
  rewrite decide_False by done. by apply IH.
Qed.

Lemma cell_after_is_Some clock i rows k cell :
  is_Some (cell_after clock i rows k cell) ↔
  is_Some cell ∨ k ∈ rate_key <$> rows.
Proof.
  revert i cell. induction rows as [|r rows IH]; intros i cell; csimpl.
  - rewrite elem_of_nil. tauto.
  - rewrite IH, elem_of_cons. case_decide as Hk.
    + split; [auto|]. intros _. left. by eexists.
    + split; [tauto|]. intros [?|[?|?]]; [tauto|congruence|tauto].
Qed.

Lemma cell_after_created clock i rows k old :
  ∃ x, cell_after clock i rows k (Some old) = Some x ∧
       created_at x = created_at old.
Proof.
  revert i old. induction rows as [|r rows IH]; intros i old; simpl.
  - by exists old.
  - case_decide; [|apply IH].
    destruct (IH (S i) (written (clock i) r (Some old))) as (x & -> & Hx).
    by exists x.
Qed.

Lemma cell_after_last clock i before r after k cell :
  rate_key r = k →
  k ∉ rate_key <$> after →
  ∃ x, cell_after clock i (before ++ r :: after) k cell = Some x ∧
       rate x = real (row_rate r) ∧ source x = row_source r ∧
       fetched_at x = row_fetched_at r ∧
       updated_at x = clock (i + length before)%nat.
Proof.
  intros Hk Hafter. revert i cell.
  induction before as [|r' before IH]; intros i cell; simpl.
  - rewrite decide_True by done. rewrite cell_after_absent by done.
    eexists. split; [done|]. simpl. by rewrite Nat.add_0_r.
  - destruct (IH (S i) (if decide (rate_key r' = k)
                        then Some (written (clock i) r' cell) else cell))
      as (x & -> & ? & ? & ? & Hup).
    exists x. split; [done|]. rewrite Hup.
    repeat split; try done. f_equal. lia.
Qed.

Lemma cell_after_first clock i before r after k :
  rate_key r = k →
  k ∉ rate_key <$> before →
  ∃ x, cell_after clock i (before ++ r :: after) k None = Some x ∧
       created_at x = clock (i + length before)%nat.
Proof.
  intros Hk Hbefore. revert i.
  induction before as [|r' before IH]; intros i; simpl.
  - rewrite decide_True by done.
    destruct (cell_after_created clock (S i) after k (written (clock i) r None))
      as (x & -> & Hx).
    exists x. split; [done|]. rewrite Hx. simpl. by rewrite Nat.add_0_r.
  - csimpl in Hbefore. apply not_elem_of_cons in Hbefore as [Hr' Hbefore].
    rewrite decide_False by done.
    destruct (IH Hbefore (S i)) as (x & -> & Hx).
    exists x. split; [done|]. rewrite Hx. f_equal. lia.
Qed.

End Batch.

Lemma upsert_rates_cells clock db rows :
  Forall well_formed rows →
  (upsert_rates clock db rows).1 = Ok (Z.of_nat (length rows)) ∧
  (∀ k, fx_rates (upsert_rates clock db rows).2 !! k =
        cell_after clock 0 rows k (fx_rates db !! k)) ∧
  ingest_runs (upsert_rates clock db rows).2 = ingest_runs db ∧
  ingest_runs_seq (upsert_rates clock db rows).2 = ingest_runs_seq db.
Proof.
  intros Hwf. unfold upsert_rates. destruct rows as [|r rows]; [done|].
  destruct (executemany_cells clock 0 (r :: rows) (fx_rates db) Hwf)
    as (t' & -> & Hcells).
  done.
Qed.

Lemma upsert_rates_nan clock db rows :
  Exists (λ r, PrimFloat.is_nan (row_rate r) = true) rows →
  upsert_rates clock db rows =
    (Err (IntegrityError "NOT NULL constraint failed: fx_rates.rate"), db).
Proof.
  intros Hnan. unfold upsert_rates.
  destruct rows as [|r rows]; [by inversion Hnan|].
  by rewrite (executemany_nan clock 0 (r :: rows) (fx_rates db) Hnan).
Qed.

(** X1.  A batch with a NaN rate anywhere in it raises the
    [IntegrityError] of [rate REAL NOT NULL] and is rolled back whole: the
    database is the one before the call, also for the rows that stood
    before the NaN. *)
Theorem upsert_rates_rolls_back clock db rows :
  Exists (λ r, PrimFloat.is_nan (row_rate r) = true) rows →
  upsert_rates clock db rows =
    (Err (IntegrityError "NOT NULL constraint failed: fx_rates.rate"), db).
Proof. apply upsert_rates_nan. Qed.

Lemma upsert_rates_rolls_back_witness :
  Exists (λ r, PrimFloat.is_nan (row_rate r) = true) [eur_row; nan_row] ∧
  upsert_rates (λ i : nat, 1770768000 + Z.of_nat i) sample_db [eur_row; nan_row] =
    (Err (IntegrityError "NOT NULL constraint failed: fx_rates.rate"), sample_db).
Proof.
  assert (Exists (λ r, PrimFloat.is_nan (row_rate r) = true) [eur_row; nan_row])
    as Hnan by (right; left; reflexivity).
  split; [exact Hnan|]. exact (upsert_rates_rolls_back _ sample_db _ Hnan).
Defined.

(** X2.  What a well-formed batch touches: the keys of its rows and
    nothing else.  A key that no row of the batch has keeps its stored row,
    timestamps included; the keys of the table afterwards are the keys
    before together with the keys of the batch; the runs and the
    [AUTOINCREMENT] counter are as before. *)
Theorem upsert_rates_frame clock db rows :
  Forall well_formed rows →
  let after := (upsert_rates clock db rows).2 in
  (∀ k, k ∉ rate_key <$> rows → fx_rates after !! k = fx_rates db !! k) ∧
  dom (fx_rates after) = dom (fx_rates db) ∪ list_to_set (rate_key <$> rows) ∧
  ingest_runs after = ingest_runs db ∧
  ingest_runs_seq after = ingest_runs_seq db.
Proof.
  intros Hwf. cbv zeta.
  destruct (upsert_rates_cells clock db rows Hwf) as (_ & Hcells & Hruns & Hseq).
  split; [|split; [|done]].
  - intros k Hk. by rewrite Hcells, cell_after_absent.
  - apply set_eq. intros k.
    rewrite elem_of_union, !elem_of_dom, elem_of_list_to_set, Hcells.
    apply cell_after_is_Some.
Qed.

Lemma upsert_rates_frame_witness :
  Forall well_formed [eur_row] ∧
  let after :=
    (upsert_rates (λ i : nat, 1770768000 + Z.of_nat i) sample_db [eur_row]).2 in
  fx_rates after !! rate_key brl_row = Some brl_stored ∧
  dom (fx_rates after) =
    dom (fx_rates sample_db) ∪ list_to_set (rate_key <$> [eur_row]).
Proof.
  assert (Forall well_formed [eur_row]) as Hwf by (by repeat constructor).
  split; [exact Hwf|]. cbv zeta.
  destruct (upsert_rates_frame (λ i : nat, 1770768000 + Z.of_nat i)
              sample_db [eur_row] Hwf) as (Hframe & Hdom & _).
  split; [|exact Hdom].
  rewrite Hframe; [reflexivity|].
  change (rate_key brl_row ∉ [rate_key eur_row]).
  rewrite list_elem_of_singleton. discriminate.
Defined.

(** X3.  Upserts never delete and never touch [created_at]: after a
    well-formed batch every key stored before is still stored, with the
    [created_at] it had, however often the batch writes it. *)
Theorem upsert_rates_keeps_created_at clock db rows k old :
  Forall well_formed rows →
  fx_rates db !! k = Some old →
  ∃ x, fx_rates (upsert_rates clock db rows).2 !! k = Some x ∧
       created_at x = created_at old.
Proof.
  intros Hwf Hold.
  destruct (upsert_rates_cells clock db rows Hwf) as (_ & Hcells & _).
  rewrite Hcells, Hold. apply cell_after_created.
Qed.

Lemma upsert_rates_keeps_created_at_witness :
  ∃ x, fx_rates (upsert_rates (λ i : nat, 1770768000 + Z.of_nat i) sample_db
                   [brl_row_revised; eur_row; brl_row]).2
         !! rate_key brl_row = Some x ∧
       created_at x = 1770681600.
Proof.
  apply (upsert_rates_keeps_created_at _ sample_db _ (rate_key brl_row) brl_stored).
  - by repeat constructor.
  - reflexivity.
Defined.

(** X4.  Within a batch the last row of a key wins: when no row after [r]
    has the key of [r], the stored row has the rate of [r], as a [REAL]
    column holds it (a zero without its sign), the source and fetched_at
    of [r], and its [updated_at] is the clock reading of the statement
    that wrote [r]. *)
Theorem upsert_rates_last_row_wins clock db before r after :
  Forall well_formed (before ++ r :: after) →
  rate_key r ∉ rate_key <$> after →
  ∃ x, fx_rates (upsert_rates clock db (before ++ r :: after)).2 !! rate_key r
         = Some x ∧
       rate x = real (row_rate r) ∧
       source x = row_source r ∧
       fetched_at x = row_fetched_at r ∧
       updated_at x = clock (length before).
Proof.
  intros Hwf Hafter.
  destruct (upsert_rates_cells clock db _ Hwf) as (_ & Hcells & _).
  rewrite Hcells.
  by apply (cell_after_last clock 0 before r after (rate_key r)
              (fx_rates db !! rate_key r) eq_refl Hafter).
Qed.

Lemma upsert_rates_last_row_wins_witness :
  ∃ x, fx_rates (upsert_rates (λ i : nat, 1770768000 + Z.of_nat i) sample_db
                   ([brl_row; eur_row] ++ brl_row_revised :: [])).2
         !! rate_key brl_row_revised = Some x ∧
       rate x = real 5.22%float ∧
       source x = "frankfurter" ∧
       fetched_at x = "2026-02-11T00:00:00+00:00" ∧
       updated_at x = 1770768002.
Proof.
  apply (upsert_rates_last_row_wins (λ i : nat, 1770768000 + Z.of_nat i)
           sample_db [brl_row; eur_row] brl_row_revised []).
  - by repeat constructor.
  - apply not_elem_of_nil.
Defined.

(** X5.  A key that is new to the table is created by the first row of
    the batch that has it: its [created_at] is the clock reading of that
    statement, whatever later rows of the batch do to it. *)
Theorem upsert_rates_new_key_created_at clock db before r after :
  Forall well_formed (before ++ r :: after) →
  fx_rates db !! rate_key r = None →
  rate_key r ∉ rate_key <$> before →
  ∃ x, fx_rates (upsert_rates clock db (before ++ r :: after)).2 !! rate_key r
         = Some x ∧
       created_at x = clock (length before).
Proof.
  intros Hwf Hnew Hbefore.
  destruct (upsert_rates_cells clock db _ Hwf) as (_ & Hcells & _).
  rewrite Hcells, Hnew.
  by apply (cell_after_first clock 0 before r after (rate_key r) eq_refl).
Qed.

Lemma upsert_rates_new_key_created_at_witness :
  ∃ x, fx_rates (upsert_rates (λ i : nat, 1770768000 + Z.of_nat i) sample_db
                   ([brl_row_revised] ++ eur_row :: [eur_row])).2
         !! rate_key eur_row = Some x ∧
       created_at x = 1770768001.
Proof.
  apply (upsert_rates_new_key_created_at (λ i : nat, 1770768000 + Z.of_nat i)
           sample_db [brl_row_revised] eur_row [eur_row]).
  - by repeat constructor.
  - reflexivity.
  - change (rate_key eur_row ∉ [rate_key brl_row_revised]).
    rewrite list_elem_of_singleton. discriminate.
Defined.
(** ** Run records *)

Section Runs.
Context `{Builtins}.

Lemma start_ingest_run_unused db :
  ids_bounded db → ingest_runs db !! (ingest_runs_seq db + 1) = None.
Proof.
  intros Hbound.
  destruct (ingest_runs db !! (ingest_runs_seq db + 1)) eqn:Hlook; [|done].
  specialize (Hbound _ (mk_is_Some _ _ Hlook)). lia.
Qed.

Lemma start_ingest_run_ok now db command_ args_ :
  ingest_runs_seq db < 2 ^ 63 - 1 →
  start_ingest_run now db command_ args_ =
    (Ok (ingest_runs_seq db + 1),
     with_ingest_runs
       (<[ingest_runs_seq db + 1 :=
            {| command := command_;
               args := Some (json_dumps true (JDict args_));
               status := "RUNNING"; started_at := now; finished_at := None;
               rows_inserted := 0; error_message := None |}]>
          (ingest_runs db))
       (ingest_runs_seq db + 1) db).
Proof.
  intros Hseq. unfold start_ingest_run.
  by rewrite (proj2 (Z.ltb_lt _ _) Hseq).
Qed.

Lemma start_ingest_run_full now db command_ args_ :
  2 ^ 63 - 1 ≤ ingest_runs_seq db →
  start_ingest_run now db command_ args_ =
    (Err (OperationalError "database or disk is full"), db).
Proof.
  intros Hseq. unfold start_ingest_run.
  by rewrite (proj2 (Z.ltb_ge _ _) Hseq).
Qed.

Lemma finish_ingest_run_ok now db run_id status_ n msg :
  int64 n = true → int64 run_id = true →
  finish_ingest_run now db run_id status_ n msg =
    (Ok (),
     with_ingest_runs
       (alter (set_finished status_ now n msg) run_id (ingest_runs db))
       (ingest_runs_seq db) db).
Proof. intros Hn Hid. unfold finish_ingest_run. by rewrite Hn, Hid. Qed.

Lemma int64_next seq : 0 ≤ seq < 2 ^ 63 - 1 → int64 (seq + 1) = true.
Proof.
  intros Hseq. unfold int64.
  apply andb_true_iff. split; [apply Z.leb_le|apply Z.ltb_lt]; lia.
Qed.

(** X6.  In a database where no run is above the [AUTOINCREMENT] counter
    and the counter is below the largest integer of 64 bits,
    [start_ingest_run] hands out the identifier after the counter, which no
    run has and which is larger than every identifier in use; the new run
    is RUNNING, with the command, the canonical text of the arguments and
    the start time, no finish time, no rows and no error; every other run
    and the rate table are as before, and the counter still bounds the
    identifiers.  With the counter at that largest integer the call raises
    [OperationalError] and the database is as it was. *)
Theorem start_ingest_run_fresh now db command_ args_ :
  ids_bounded db →
  let started := start_ingest_run now db command_ args_ in
  let id := ingest_runs_seq db + 1 in
  (ingest_runs_seq db < 2 ^ 63 - 1 →
   started.1 = Ok id ∧
   ingest_runs db !! id = None ∧
   (∀ id', is_Some (ingest_runs db !! id') → id' < id) ∧
   ingest_runs started.2 !! id =
     Some {| command := command_;
             args := Some (json_dumps true (JDict args_));
             status := "RUNNING"; started_at := now; finished_at := None;
             rows_inserted := 0; error_message := None |} ∧
   (∀ id', id' ≠ id → ingest_runs started.2 !! id' = ingest_runs db !! id') ∧
   fx_rates started.2 = fx_rates db ∧
   ids_bounded started.2) ∧
  (2 ^ 63 - 1 ≤ ingest_runs_seq db →
   started = (Err (OperationalError "database or disk is full"), db)).
Proof.
  intros Hbound. cbv zeta. split; [|apply start_ingest_run_full].
  intros Hseq. rewrite start_ingest_run_ok by done. cbn [fst snd].
  assert (∀ id, is_Some (ingest_runs db !! id) → id < ingest_runs_seq db + 1)
    as Hbelow.
  { intros id Hid. specialize (Hbound id Hid). lia. }
  split; [done|].
  split; [by apply start_ingest_run_unused|].
  split; [done|].
  unfold with_ingest_runs. cbn [ingest_runs fx_rates ingest_runs_seq].
  split; [by rewrite lookup_insert_eq|].
  split; [by intros id Hid; rewrite lookup_insert_ne|].
  split; [done|].
  intros id. unfold ids_bounded. cbn [ingest_runs ingest_runs_seq].
  rewrite lookup_insert. case_decide; [lia|].
  intros Hid. specialize (Hbound id Hid). lia.
Qed.

Lemma finish_after_start now1 now2 db command_ args_ status_ n msg :
  0 ≤ ingest_runs_seq db < 2 ^ 63 - 1 →
  int64 n = true →
  let started := start_ingest_run now1 db command_ args_ in
  let finished :=
    finish_ingest_run now2 started.2 (ingest_runs_seq db + 1) status_ n msg in
  started.1 = Ok (ingest_runs_seq db + 1) ∧
  finished.1 = Ok () ∧
  ingest_runs finished.2 =
    <[ingest_runs_seq db + 1 :=
        {| command := command_; args := Some (json_dumps true (JDict args_));
           status := status_; started_at := now1; finished_at := Some now2;
           rows_inserted := n; error_message := msg |}]> (ingest_runs db) ∧
  fx_rates finished.2 = fx_rates db ∧
  ingest_runs_seq finished.2 = ingest_runs_seq db + 1.
Proof.
  intros Hseq Hn. cbv zeta.
  rewrite start_ingest_run_ok by lia. cbn [fst snd].
  rewrite finish_ingest_run_ok by (done || by apply int64_next).
  cbn [fst snd]. split; [done|]. split; [done|].
  unfold with_ingest_runs. cbn [ingest_runs fx_rates ingest_runs_seq].
  split; [|done].
  apply map_eq. intros id.
  destruct (decide (ingest_runs_seq db + 1 = id)) as [<-|Hid].
  - by rewrite lookup_alter_eq, !lookup_insert_eq.
  - by rewrite lookup_alter_ne, !lookup_insert_ne.
Qed.

(** X7.  A run that is started and then finished under the identifier it
    was given, in a database whose counter bounds its identifiers and is
    not negative and below the largest integer of 64 bits, with a row
    count that is an integer of 64 bits: both calls return, and the table
    holds exactly one run more than before, under that identifier, with
    the command, arguments and start time of the start and the status,
    finish time, row count and error message of the finish; the runs that
    were there are untouched, and so is the rate table. *)
Theorem start_then_finish now1 now2 db command_ args_ status_ n msg :
  ids_bounded db →
  0 ≤ ingest_runs_seq db < 2 ^ 63 - 1 →
  int64 n = true →
  let started := start_ingest_run now1 db command_ args_ in
  let id := ingest_runs_seq db + 1 in
  let finished := finish_ingest_run now2 started.2 id status_ n msg in
  started.1 = Ok id ∧
  finished.1 = Ok () ∧
  ingest_runs finished.2 !! id =
    Some {| command := command_;
            args := Some (json_dumps true (JDict args_));
            status := status_; started_at := now1; finished_at := Some now2;
            rows_inserted := n; error_message := msg |} ∧
  (∀ id', id' ≠ id → ingest_runs finished.2 !! id' = ingest_runs db !! id') ∧
  size (ingest_runs finished.2) = S (size (ingest_runs db)) ∧
  fx_rates finished.2 = fx_rates db.
Proof.
  intros Hbound Hseq Hn.
  pose proof (start_ingest_run_unused db Hbound) as Hfresh.
  destruct (finish_after_start now1 now2 db command_ args_ status_ n msg Hseq Hn)
    as (Hstart & Hok & Hruns & Hrates & _).
  cbv zeta. rewrite Hruns.
  split; [done|]. split; [done|].
  split; [by rewrite lookup_insert_eq|].
  split; [by intros id Hid; rewrite lookup_insert_ne|].
  split; [by apply map_size_insert_None|done].
Qed.

End Runs.

Lemma sample_db_ids_bounded : ids_bounded sample_db.
Proof.
  intros id [run Hrun]. change (({[1 := run_ok]} : gmap Z ingest_run) !! id = Some run) in Hrun.
  apply lookup_singleton_Some in Hrun as [<- _]. simpl. lia.
Qed.

Lemma start_ingest_run_fresh_witness :
  ids_bounded sample_db ∧
  let started :=
    @start_ingest_run no_builtins "2026-02-11T09:30:00+00:00" sample_db "daily"
      [("base", JStr "USD"); ("symbols", JList [JStr "BRL"]);
       ("use_cache", JBool true)] in
  started.1 = Ok 2 ∧ ingest_runs sample_db !! 2 = None.
Proof.
  split; [exact sample_db_ids_bounded|]. cbv zeta.
  destruct (proj1 (@start_ingest_run_fresh no_builtins
                     "2026-02-11T09:30:00+00:00" sample_db "daily"
                     [("base", JStr "USD"); ("symbols", JList [JStr "BRL"]);
                      ("use_cache", JBool true)] sample_db_ids_bounded))
    as (Hid & Hnone & _).
  - reflexivity.
  - split; [exact Hid|exact Hnone].
Defined.

Lemma start_then_finish_witness :
  let started :=
    @start_ingest_run no_builtins "2026-02-11T09:30:00+00:00" sample_db "daily"
      [("base", JStr "USD")] in
  let finished :=
    finish_ingest_run "2026-02-11T09:30:01+00:00" started.2 2 "FAIL" 0
      (Some "boom") in
  started.1 = Ok 2 ∧
  finished.1 = Ok () ∧
  size (ingest_runs finished.2) = S (size (ingest_runs sample_db)) ∧
  fx_rates finished.2 = fx_rates sample_db.
Proof.
  destruct (@start_then_finish no_builtins "2026-02-11T09:30:00+00:00"
              "2026-02-11T09:30:01+00:00" sample_db "daily"
              [("base", JStr "USD")] "FAIL" 0 (Some "boom")
              sample_db_ids_bounded)
    as (Hid & Hok & _ & _ & Hsize & Hrates).
  - split; [discriminate|reflexivity].
  - reflexivity.
  - cbv zeta. split; [exact Hid|]. split; [exact Hok|].
    split; [exact Hsize|exact Hrates].
Defined.

(** ** Invariants of every history *)

Lemma rows_well_formed_or_nan rows :
  Forall well_formed rows ∨
  Exists (λ r, PrimFloat.is_nan (row_rate r) = true) rows.
Proof.
  induction rows as [|r rows [IH|IH]].
  - left. constructor.
  - destruct (PrimFloat.is_nan (row_rate r)) eqn:Hr.
    + right. by left.
    + left. by constructor.
  - right. by right.
Qed.

Lemma cell_after_not_nan clock i rows k cell x :
  Forall well_formed rows →
  (∀ y, cell = Some y → PrimFloat.is_nan (rate y) = false) →
  cell_after clock i rows k cell = Some x →
  PrimFloat.is_nan (rate x) = false.
Proof.
  intros Hwf. revert i cell.
  induction Hwf as [|r rows Hr _ IH]; intros i cell Hcell; simpl.
  - intros Hx. by apply Hcell.
  - apply IH. case_decide; [|done]. intros y [= <-]. simpl.
    unfold real. by destruct (PrimFloat.eqb (row_rate r) 0).
Qed.

Lemma run_call_invariants db c :
  ids_bounded db ∧ rates_not_null db →
  ids_bounded (run_call db c) ∧ rates_not_null (run_call db c).
Proof.
  intros [Hids Hrates].
  destruct c as [clock rows|B now command_ args_|now run_id status_ n msg];
    simpl.
  - destruct (rows_well_formed_or_nan rows) as [Hwf|Hnan].
    + destruct (upsert_rates_cells clock db rows Hwf)
        as (_ & Hcells & Hruns & Hseq).
      split.
      * intros id. unfold ids_bounded in Hids. rewrite Hruns, Hseq. apply Hids.
      * intros k x. rewrite Hcells. apply cell_after_not_nan; [done|].
        intros y Hy. by apply (Hrates k).
    + by rewrite (upsert_rates_nan clock db rows Hnan).
  - unfold start_ingest_run.
    destruct (ingest_runs_seq db <? 2 ^ 63 - 1); [|done].
    split; [|done].
    intros id. unfold with_ingest_runs.
    cbn [snd ingest_runs ingest_runs_seq]. rewrite lookup_insert.
    case_decide; [lia|]. intros Hid. specialize (Hids id Hid). lia.
  - unfold finish_ingest_run.
    destruct (int64 n && int64 run_id); [|done].
    split; [|done].
    intros id. unfold with_ingest_runs.
    cbn [snd ingest_runs ingest_runs_seq].
    rewrite lookup_alter_is_Some. apply Hids.
Qed.

(** X8.  Whatever calls of [upsert_rates], [start_ingest_run] and
    [finish_ingest_run] are made, in whatever order and with whatever
    arguments, on a database that [init_db] created: no run has an
    identifier above the [AUTOINCREMENT] counter, so that the identifier
    after the counter, which is the one the next start gets, is one no run
    has, and no stored rate is a NaN. *)
Theorem history_invariants (calls : list db_call) (B : Builtins)
    (now command_ : string) (args_ : list (string * json)) :
  let db := foldl run_call (init_db None) calls in
  ids_bounded db ∧
  rates_not_null db ∧
  ingest_runs db !! (ingest_runs_seq db + 1) = None ∧
  ∀ id, (@start_ingest_run B now db command_ args_).1 = Ok id →
        id = ingest_runs_seq db + 1 ∧ ingest_runs db !! id = None.
Proof.
  cbv zeta.
  assert (ids_bounded (foldl run_call (init_db None) calls) ∧
          rates_not_null (foldl run_call (init_db None) calls)) as [Hids Hrates].
  { assert (ids_bounded (init_db None) ∧ rates_not_null (init_db None)) as Hinit.
    { split; [intros id [run Hrun]|intros k x Hx]; simpl in *;
        by rewrite lookup_empty in *. }
    revert Hinit. generalize (init_db None).
    induction calls as [|c calls IH]; intros db Hdb; simpl; [done|].
    apply IH. by apply run_call_invariants. }
  assert (ingest_runs (foldl run_call (init_db None) calls)
            !! (ingest_runs_seq (foldl run_call (init_db None) calls) + 1) = None)
    as Hnone.
  { destruct (ingest_runs _ !! _) eqn:Hlook; [|done].
    specialize (Hids _ (mk_is_Some _ _ Hlook)). lia. }
  split; [done|]. split; [done|]. split; [done|].
  intros id. unfold start_ingest_run.
  destruct (ingest_runs_seq _ <? 2 ^ 63 - 1); [|done].
  by intros [= <-].
Qed.

(** ** The normaliser, shape by shape *)

Lemma upper_char_idemp c : upper_char (upper_char c) = upper_char c.
Proof. by destruct c as [[] [] [] [] [] [] [] []]. Qed.

Lemma upper_idemp s : upper (upper s) = upper s.
Proof.
  induction s as [|c s IH]; simpl; [done|]. by rewrite upper_char_idemp, IH.
Qed.

Section MapM.
Context {A B : Type} (f : A → result B).

Lemma mapM_ok l ys :
  mapM f l = Ok ys ↔ Forall2 (λ x y, f x = Ok y) l ys.
Proof.
  revert ys. induction l as [|x l IH]; intros ys; simpl.
  - split; [by intros [= <-]; constructor|by inversion 1].
  - destruct (f x) as [y|e] eqn:Hx; simpl.
    + destruct (mapM f l) as [k|e] eqn:Hl; simpl.
      * split.
        -- intros [= <-]. constructor; [done|]. by apply IH.
        -- inversion 1 as [|? y' ? k' Hy Hk]; subst.
           rewrite Hx in Hy. injection Hy as <-.
           apply IH in Hk. by injection Hk as <-.
      * split; [done|]. inversion 1 as [|? y' ? k' Hy Hk]; subst.
        by apply IH in Hk.
    + split; [done|]. inversion 1 as [|? y' ? k' Hy Hk]; subst. congruence.
Qed.

Lemma mapM_err_elem l x e :
  x ∈ l → f x = Err e → ∃ e', mapM f l = Err e'.
Proof.
  intros Hin Hx. destruct (mapM f l) as [ys|e'] eqn:Hl; [|by eauto].
  apply mapM_ok in Hl.
  apply list_elem_of_lookup in Hin as [i Hi].
  destruct (Forall2_lookup_l _ _ _ _ _ Hl Hi) as (y & _ & Hy). congruence.
Qed.

End MapM.

Section Shapes.
Context `{Builtins}.

Lemma base_value_resolves base d b :
  base_resolves base d b → base_value base d = Ok (upper b).
Proof.
  intros [Hb [-> | [Hnone Hd]]];
    [by apply base_value_override|by apply base_value_payload].
Qed.

(** Where a successful normalisation went: through the snapshot branch
    or through the series branch. *)
Lemma normalize_payload_ok_inv now payload base source fetched_at rows :
  normalize_payload now payload base source fetched_at = Ok rows →
  ∃ d rates b timestamp,
    payload = JDict d ∧ dict_get "rates" d = Some (JDict rates) ∧
    base_value base d = Ok b ∧ b ≠ "" ∧
    timestamp = match fetched_at with
                | Some t => if str_truthy t then t else now
                | None => now
                end ∧
    ((rates ≠ [] ∧ forallb is_number (dict_values rates) = true ∧
      ∃ date, dict_get "date" d = Some date ∧ py_str date ≠ "" ∧
              mapM (make_row (py_str date) b source timestamp) rates = Ok rows) ∨
     ((rates = [] ∨ forallb is_number (dict_values rates) = false) ∧
      ∃ per_date, mapM (series_rows b source timestamp) rates = Ok per_date ∧
                  rows = concat per_date)).
Proof.
  unfold normalize_payload.
  destruct (_validate_payload payload) as [[]|e] eqn:Hvalid; [|done].
  apply validate_payload_ok in Hvalid as (d & rates & -> & Hrates).
  simpl. rewrite Hrates.
  destruct (base_value base d) as [b|e] eqn:Hbase; [|done]. simpl.
  destruct (str_truthy b) eqn:Hb; [|done]. simpl.
  intros Hrows. exists d, rates, b. eexists.
  apply str_truthy_true in Hb.
  refine (conj eq_refl (conj Hrates (conj Hbase (conj Hb (conj eq_refl _))))). 
  destruct rates as [|item rates]; cbn [andb] in Hrows.
  - simpl in Hrows. right. split; [by left|]. exists []. split; [reflexivity|].
    by injection Hrows as <-.
  - destruct (forallb is_number (dict_values (item :: rates))) eqn:Hnum.
    + left. split; [done|]. split; [done|].
      destruct (dict_get "date" d) as [date|]; [|done].
      destruct (str_truthy (py_str date)) eqn:Hdate; [|done].
      apply str_truthy_true in Hdate. by exists date.
    + right. split; [by right|].
      destruct (mapM _ (item :: rates)) as [per_date|e]; [|done].
      injection Hrows as <-. by exists per_date.
Qed.

(** The columns that the rows of one successful normalisation share. *)
Lemma normalize_payload_fields now payload base source fetched_at rows :
  normalize_payload now payload base source fetched_at = Ok rows →
  ∃ d b,
    payload = JDict d ∧ base_value base d = Ok b ∧ b ≠ "" ∧
    Forall (λ r, row_base r = b ∧ row_source r = source ∧
                 row_fetched_at r = match fetched_at with
                                    | Some t => if str_truthy t then t else now
                                    | None => now
                                    end ∧
                 upper (row_symbol r) = row_symbol r) rows.
Proof.
  intros Hrows.
  apply normalize_payload_ok_inv in Hrows
    as (d & rates & b & timestamp & -> & Hrates & Hbase & Hb & Hts & Hshape).
  exists d, b. split; [done|]. split; [done|]. split; [done|]. rewrite <-Hts.
  assert (∀ date (items : list (string * json)) rs,
            mapM (make_row date b source timestamp) items = Ok rs →
            Forall (λ r, row_base r = b ∧ row_source r = source ∧
                         row_fetched_at r = timestamp ∧
                         upper (row_symbol r) = row_symbol r) rs) as Hmake.
  { intros date items rs Hrs. apply mapM_ok in Hrs.
    induction Hrs as [|item r items rs Hr _ IH]; [constructor|].
    constructor; [|done]. unfold make_row in Hr. destruct (py_float item.2); [|done].
    injection Hr as <-. simpl. by rewrite upper_idemp. }
  destruct Hshape as [(_ & _ & date & _ & _ & Hrs)|(_ & per_date & Hper & ->)].
  - by eapply Hmake.
  - apply mapM_ok in Hper. apply Forall_concat. clear Hrates.
    induction Hper as [|item rs items per_date Hrs _ IH]; [constructor|].
    constructor; [|done]. unfold series_rows in Hrs. destruct item.2; try done. by eapply Hmake.
Qed.

(** X9.  Rows that one call of [normalize_payload] returns agree on
    everything but date, symbol and rate: they carry one base, which is not
    empty and is in upper case, the source of the call, and one fetched_at,
    which is the caller's when that is not empty and the time of the call
    otherwise; and every symbol is in upper case. *)
Theorem normalize_payload_rows_uniform now payload base source fetched_at rows :
  normalize_payload now payload base source fetched_at = Ok rows →
  ∃ b timestamp,
    b ≠ "" ∧ upper b = b ∧
    (fetched_at = Some timestamp ∧ timestamp ≠ "" ∨
     (fetched_at = None ∨ fetched_at = Some "") ∧ timestamp = now) ∧
    Forall (λ r, row_base r = b ∧ row_source r = source ∧
                 row_fetched_at r = timestamp ∧
                 upper (row_symbol r) = row_symbol r) rows.
Proof.
  intros Hrows.
  apply normalize_payload_fields in Hrows as (d & b & -> & Hbase & Hb & Hfields).
  exists b. eexists. split; [done|]. split.
  { unfold base_value in Hbase.
    destruct (match base with Some _ => _ | None => _ end); try done.
    injection Hbase as <-. apply upper_idemp. }
  split; [|exact Hfields].
  destruct fetched_at as [[|c t]|]; simpl; [right; auto|left; done|right; auto].
Qed.

End Shapes.

Lemma normalize_payload_rows_uniform_witness :
  ∃ b timestamp,
    b ≠ "" ∧ upper b = b ∧
    (Some "2026-02-10T00:00:00Z" = Some timestamp ∧ timestamp ≠ "" ∨
     (Some "2026-02-10T00:00:00Z" = None ∨ Some "2026-02-10T00:00:00Z" = Some "") ∧
     timestamp = "2026-02-11T09:30:00+00:00") ∧
    Forall (λ r, row_base r = b ∧ row_source r = "frankfurter" ∧
                 row_fetched_at r = timestamp ∧
                 upper (row_symbol r) = row_symbol r)
      [ {| row_date := "2026-02-10"; row_base := "USD"; row_symbol := "BRL";
           row_rate := 5.12%float; row_source := "frankfurter";
           row_fetched_at := "2026-02-10T00:00:00Z" |};
        {| row_date := "2026-02-10"; row_base := "USD"; row_symbol := "EUR";
           row_rate := 0.93%float; row_source := "frankfurter";
           row_fetched_at := "2026-02-10T00:00:00Z" |} ].
Proof.
  exact (@normalize_payload_rows_uniform no_builtins
           "2026-02-11T09:30:00+00:00" snapshot_payload (Some "usd")
           "frankfurter" (Some "2026-02-10T00:00:00Z") _ eq_refl).
Defined.

Section Shapes2.
Context `{Builtins}.

(** X10.  The snapshot shape.  When [rates] is not empty and holds numbers
    only, under keys whose upper case the model has, a successful
    normalisation gives one row per item of [rates], in the order of the
    dictionary: the symbols are the keys in upper case, the rates are the
    values as [float] converts them, and every row has as date the text of
    the payload's [date], which is there and not empty. *)
Theorem normalize_payload_snapshot_rows now d rates base source fetched_at rows :
  dict_get "rates" d = Some (JDict rates) →
  rates ≠ [] →
  forallb is_number (dict_values rates) = true →
  Forall (λ symbol, has_upper symbol = true) (dict_keys rates) →
  normalize_payload now (JDict d) base source fetched_at = Ok rows →
  row_symbol <$> rows = upper <$> dict_keys rates ∧
  Forall2 (λ item r, py_float item.2 = Ok (row_rate r)) rates rows ∧
  ∃ date, dict_get "date" d = Some date ∧ py_str date ≠ "" ∧
          Forall (λ r, row_date r = py_str date) rows.
Proof.
  intros Hrates Hne Hnum _ Hrows.
  apply normalize_payload_ok_inv in Hrows
    as (d' & rates' & b & timestamp & [= <-] & Hrates' & _ & _ & _ & Hshape).
  rewrite Hrates in Hrates'. injection Hrates' as <-.
  destruct Hshape as [(_ & _ & date & Hdate & Hne' & Hrs)|([?|Hnum'] & _)];
    [|done|congruence].
  apply mapM_ok in Hrs. clear Hrates Hne Hnum.
  split; [|split; [|exists date; split; [done|split; [done|]]]].
  - unfold dict_keys.
    induction Hrs as [|item r rates rows Hr _ IH]; csimpl; [done|].
    rewrite IH. f_equal. unfold make_row in Hr.
    destruct (py_float item.2); [|done]. by injection Hr as <-.
  - induction Hrs as [|item r rates rows Hr _ IH]; constructor; [|done].
    unfold make_row in Hr. destruct (py_float item.2); [|done].
    by injection Hr as <-.
  - induction Hrs as [|item r rates rows Hr _ IH]; constructor; [|done].
    unfold make_row in Hr. destruct (py_float item.2); [|done].
    by injection Hr as <-.
Qed.

(** X11.  A snapshot without a date is refused.  When [rates] is not empty
    and holds numbers only, the base resolves, and the payload has no
    [date] or an empty string under it, [normalize_payload] raises
    "Payload latest sem campo date." and returns no row. *)
Theorem normalize_payload_snapshot_no_date now d rates base b source fetched_at :
  dict_get "rates" d = Some (JDict rates) →
  rates ≠ [] →
  forallb is_number (dict_values rates) = true →
  base_resolves base d b →
  dict_get "date" d = None ∨ dict_get "date" d = Some (JStr "") →
  normalize_payload now (JDict d) base source fetched_at =
    Err (ValueError "Payload latest sem campo date.").
Proof.
  intros Hrates Hne Hnum Hbase Hdate.
  pose proof (base_value_resolves base d b Hbase) as Hbv.
  destruct Hbase as [Hb _].
  pose proof (upper_nonempty b Hb) as Hu. apply str_truthy_true in Hu.
  unfold normalize_payload. simpl. rewrite Hrates. simpl. rewrite Hbv. simpl.
  rewrite Hu. simpl. rewrite Hnum.
  destruct rates as [|item rates]; [done|]. cbn [andb].
  by destruct Hdate as [-> | ->].
Qed.

Lemma series_rows_inv b source timestamp rates per_date :
  mapM (series_rows b source timestamp) rates = Ok per_date →
  Forall (λ item, ∃ per_symbol, item.2 = JDict per_symbol) rates ∧
  (λ r, (row_date r, row_symbol r)) <$> concat per_date = series_keys rates.
Proof.
  intros Hper. apply mapM_ok in Hper. unfold series_keys.
  induction Hper as [|item rs rates per_date Hrs _ [IH1 IH2]]; [by split|].
  unfold series_rows in Hrs.
  destruct item as [date value]. simpl in Hrs.
  destruct value as [ | | | | | |per_symbol]; try done.
  split; [constructor; [by exists per_symbol|done]|].
  csimpl. rewrite fmap_app, IH2. f_equal.
  apply mapM_ok in Hrs. clear IH1 IH2.
  induction Hrs as [|kv r per_symbol rs Hr _ IH]; csimpl; [done|].
  rewrite IH. f_equal. unfold make_row in Hr.
  destruct (py_float kv.2); [|done]. by injection Hr as <-.
Qed.

(** X12.  The series shape.  When [rates] is empty or holds a value that
    is no number, and its symbols are ones whose upper case the model has,
    a successful normalisation means that every value of [rates] is a
    dictionary, and the rows are, date by date in the order of [rates] and
    symbol by symbol in the order of each date's dictionary, one row per
    pair, with the date as it is written and the symbol in upper case. *)
Theorem normalize_payload_series_rows now d rates base source fetched_at rows :
  dict_get "rates" d = Some (JDict rates) →
  rates = [] ∨ forallb is_number (dict_values rates) = false →
  Forall (λ symbol, has_upper symbol = true) (series_symbols rates) →
  normalize_payload now (JDict d) base source fetched_at = Ok rows →
  Forall (λ item, ∃ per_symbol, item.2 = JDict per_symbol) rates ∧
  (λ r, (row_date r, row_symbol r)) <$> rows = series_keys rates.
Proof.
  intros Hrates Hseries _ Hrows.
  apply normalize_payload_ok_inv in Hrows
    as (d' & rates' & b & timestamp & [= <-] & Hrates' & _ & _ & _ & Hshape).
  rewrite Hrates in Hrates'. injection Hrates' as <-.
  destruct Hshape as [(Hne & Hnum & _)|(_ & per_date & Hper & ->)].
  { destruct Hseries; congruence. }
  by apply (series_rows_inv b source timestamp).
Qed.

(** X13.  Mixed shapes are refused.  When [rates] holds a value that is no
    number and a value that is no dictionary (a number beside a
    dictionary, say), [normalize_payload] raises, whatever its other
    arguments. *)
Theorem normalize_payload_mixed now d rates base source fetched_at :
  dict_get "rates" d = Some (JDict rates) →
  Exists (λ item, is_number item.2 = false) rates →
  Exists (λ item, ∀ per_symbol, item.2 ≠ JDict per_symbol) rates →
  ∃ e, normalize_payload now (JDict d) base source fetched_at = Err e.
Proof.
  intros Hrates Hnonnum Hnondict.
  destruct (normalize_payload now (JDict d) base source fetched_at)
    as [rows|e] eqn:Hrows; [|by eauto].
  assert (forallb is_number (dict_values rates) = false) as Hnum.
  { apply not_true_is_false. intros Hall.
    apply Exists_exists in Hnonnum as (item & Hin & Hitem).
    rewrite forallb_forall in Hall. rewrite (Hall item.2) in Hitem; [done|].
    apply list_elem_of_In, list_elem_of_fmap. by exists item. }
  apply normalize_payload_ok_inv in Hrows
    as (d' & rates' & b & timestamp & [= <-] & Hrates' & _ & _ & _ & Hshape).
  rewrite Hrates in Hrates'. injection Hrates' as <-.
  destruct Hshape as [(_ & Hnum' & _)|(_ & per_date & Hper & _)]; [congruence|].
  destruct (series_rows_inv b source timestamp rates per_date Hper) as [Hdicts _].
  apply Exists_exists in Hnondict as (item & Hin & Hitem).
  rewrite Forall_forall in Hdicts.
  destruct (Hdicts item Hin) as [per_symbol Hdict]. by destruct (Hitem per_symbol).
Qed.

End Shapes2.

Lemma normalize_payload_snapshot_rows_witness :
  row_symbol <$> [brl_row; eur_row] = upper <$> dict_keys snapshot_rates ∧
  Forall2 (λ item r, @py_float no_builtins item.2 = Ok (row_rate r))
    snapshot_rates [brl_row; eur_row] ∧
  ∃ date, dict_get "date" snapshot_items = Some date ∧
          @py_str no_builtins date ≠ "" ∧
          Forall (λ r, row_date r = @py_str no_builtins date) [brl_row; eur_row].
Proof.
  apply (@normalize_payload_snapshot_rows no_builtins
           "2026-02-11T09:30:00+00:00" snapshot_items snapshot_rates
           (Some "USD") "frankfurter" (Some "2026-02-10T00:00:00+00:00")).
  - reflexivity.
  - discriminate.
  - reflexivity.
  - by repeat constructor.
  - reflexivity.
Defined.

Lemma normalize_payload_snapshot_no_date_witness :
  base_resolves None dateless_items "USD" ∧
  @normalize_payload no_builtins "2026-02-11T09:30:00+00:00"
    (JDict dateless_items) None "frankfurter" None =
    Err (ValueError "Payload latest sem campo date.").
Proof.
  assert (base_resolves None dateless_items "USD") as Hbase.
  { split; [discriminate|]. right. split; [by left|reflexivity]. }
  split; [exact Hbase|].
  apply (@normalize_payload_snapshot_no_date no_builtins _ dateless_items
           snapshot_rates None "USD").
  - reflexivity.
  - discriminate.
  - reflexivity.
  - exact Hbase.
  - by left.
Defined.

Lemma normalize_payload_series_rows_witness :
  ∃ rows,
    @normalize_payload no_builtins "2026-02-11T09:30:00+00:00"
      (JDict series_items) None "frankfurter" None = Ok rows ∧
    (λ r, (row_date r, row_symbol r)) <$> rows =
      [("2026-02-09", "BRL"); ("2026-02-09", "EUR"); ("2026-02-10", "BRL")].
Proof.
  eexists. split; [reflexivity|].
  refine (proj2 (@normalize_payload_series_rows no_builtins
                   "2026-02-11T09:30:00+00:00" series_items series_rates
                   None "frankfurter" None _ eq_refl (or_intror eq_refl) _ eq_refl)).
  by repeat constructor.
Defined.

Lemma normalize_payload_mixed_witness :
  ∃ e, @normalize_payload no_builtins "2026-02-11T09:30:00+00:00"
         (JDict mixed_items) None "frankfurter" None = Err e.
Proof.
  apply (@normalize_payload_mixed no_builtins _ mixed_items mixed_rates).
  - reflexivity.
  - left. reflexivity.
  - right. left. intros per_symbol. discriminate.
Defined.

(** ** The client and its cache *)

Section Cache.
Context `{Builtins}.
Import FrankfurterClient.

(** [_get_json] when the service is reached and answers with a payload
    that passes the validator. *)
Lemma get_json_fetched self server w endpoint params status_code payload :
  (use_cache self = false ∨ files w !! _cache_file self endpoint params = None) →
  server (base_url self +:+ endpoint) params = Response status_code (Some payload) →
  ¬ (400 ≤ status_code < 600) →
  _validate_payload payload = Ok () →
  _get_json self server w endpoint params =
    (Ok payload,
     let w1 := if use_cache self
               then log (CacheExists (_cache_file self endpoint params)) w else w in
     let w2 := log (HttpGet (base_url self +:+ endpoint) params
                      (timeout_seconds self)) w1 in
     if use_cache self
     then write_text (_cache_file self endpoint params) (json_dumps false payload) w2
     else w2).
Proof.
  intros Hmiss Hserver Hstatus Hvalid. unfold _get_json. cbv zeta.
  assert ((if use_cache self
           then files (if use_cache self
                       then log (CacheExists (_cache_file self endpoint params)) w
                       else w) !! _cache_file self endpoint params
           else None) = None) as ->.
  { destruct (use_cache self); [|done]. by destruct Hmiss. }
  rewrite Hserver.
  assert ((400 <=? status_code) && (status_code <? 600) = false) as ->.
  { apply not_true_is_false. intros Hs.
    apply andb_true_iff in Hs as [?%Z.leb_le ?%Z.ltb_lt]. lia. }
  by rewrite Hvalid.
Qed.

(** X14.  The second fetch of a query is served from the cache.  After a
    call with caching on that found no file, reached the service and got a
    valid payload, the cache holds the text of that payload under the file
    of the query; a second call for the same query, whatever the service
    would answer now, sends no request: it probes and reads that file,
    changes no file, and returns what the JSON parser makes of the text. *)
Theorem get_json_second_call self server server' w endpoint params status_code payload :
  use_cache self = true →
  files w !! _cache_file self endpoint params = None →
  server (base_url self +:+ endpoint) params = Response status_code (Some payload) →
  ¬ (400 ≤ status_code < 600) →
  _validate_payload payload = Ok () →
  let cache_file := _cache_file self endpoint params in
  let first := _get_json self server w endpoint params in
  let second := _get_json self server' first.2 endpoint params in
  first.1 = Ok payload ∧
  files first.2 = <[cache_file := json_dumps false payload]> (files w) ∧
  second.1 = match json_loads (json_dumps false payload) with
             | Some cached => Ok cached
             | None => Err JSONDecodeError
             end ∧
  files second.2 = files first.2 ∧
  trace second.2 = trace first.2 ++ [CacheExists cache_file; CacheRead cache_file].
Proof.
  intros Hcache Hmiss Hserver Hstatus Hvalid. cbv zeta.
  rewrite (get_json_fetched self server w endpoint params status_code payload)
    by auto.
  rewrite Hcache. cbn [fst snd]. split; [done|]. split; [done|].
  unfold _get_json. rewrite Hcache. cbv zeta.
  cbn [files log write_text]. rewrite lookup_insert_eq.
  cbn [fst snd files trace log]. by rewrite <-!app_assoc.
Qed.

(** X15.  A file of the cache is trusted as it is.  With caching on and a
    file there for the query, [_get_json] sends no request and changes no
    file; it returns what the JSON parser makes of the text, without
    running the validator on it, and raises [JSONDecodeError] when the
    text is no JSON, without turning to the service. *)
Theorem get_json_cache_hit self server w endpoint params text :
  use_cache self = true →
  files w !! _cache_file self endpoint params = Some text →
  let cache_file := _cache_file self endpoint params in
  let after := _get_json self server w endpoint params in
  after.1 = match json_loads text with
            | Some payload => Ok payload
            | None => Err JSONDecodeError
            end ∧
  files after.2 = files w ∧
  trace after.2 = trace w ++ [CacheExists cache_file; CacheRead cache_file].
Proof.
  intros Hcache Hhit. cbv zeta. unfold _get_json. rewrite Hcache. cbv zeta.
  cbn [files log]. rewrite Hhit. cbn [fst snd files trace log].
  by rewrite <-app_assoc.
Qed.

(** X16.  With caching off the cache is out of the picture: whatever the
    service answers, the call sends exactly one request, to the base URL
    followed by the endpoint, with the parameters and the timeout of the
    client, and neither looks at a file of the cache nor writes one. *)
Theorem get_json_without_cache self server w endpoint params :
  use_cache self = false →
  let after := _get_json self server w endpoint params in
  files after.2 = files w ∧
  trace after.2 =
    trace w ++ [HttpGet (base_url self +:+ endpoint) params (timeout_seconds self)].
Proof.
  intros Hcache. cbv zeta. unfold _get_json. rewrite Hcache. cbv zeta.
  destruct (server _ params) as [|status_code [payload|]]; [done| |].
  - destruct ((400 <=? status_code) && (status_code <? 600)); [done|].
    by destruct (_validate_payload payload).
  - by destruct ((400 <=? status_code) && (status_code <? 600)).
Qed.

(** X17.  Files of the cache are written once.  Whatever the service
    answers, a call of [_get_json] leaves every file that was in the cache
    with the text it had, and every path other than the file of its own
    query as it was. *)
Theorem get_json_keeps_files self server w endpoint params :
  let after := _get_json self server w endpoint params in
  (∀ path text, files w !! path = Some text → files after.2 !! path = Some text) ∧
  (∀ path, path ≠ _cache_file self endpoint params →
           files after.2 !! path = files w !! path).
Proof.
  cbv zeta. unfold _get_json. cbv zeta.
  set (cache_file := _cache_file self endpoint params).
  destruct (use_cache self) eqn:Hcache; cbn [files log].
  - destruct (files w !! cache_file) as [text|] eqn:Hfile; [done|].
    destruct (server _ params) as [|status_code [payload|]]; [done| |].
    + destruct ((400 <=? status_code) && (status_code <? 600)); [done|].
      destruct (_validate_payload payload); [|done].
      cbn [snd files write_text log]. split.
      * intros path text Hpath. rewrite lookup_insert_ne; [done|]. congruence.
      * intros path Hpath. by rewrite lookup_insert_ne.
    + by destruct ((400 <=? status_code) && (status_code <? 600)).
  - destruct (server _ params) as [|status_code [payload|]]; [done| |].
    + destruct ((400 <=? status_code) && (status_code <? 600)); [done|].
      by destruct (_validate_payload payload).
    + by destruct ((400 <=? status_code) && (status_code <? 600)).
Qed.

End Cache.

Lemma get_json_second_call_witness :
  let cache_file :=
    @FrankfurterClient._cache_file no_builtins sample_client "/v1/latest"
      sample_params in
  let first :=
    @FrankfurterClient._get_json no_builtins sample_client snapshot_server
      empty_world "/v1/latest" sample_params in
  let second :=
    @FrankfurterClient._get_json no_builtins sample_client rateless_server
      first.2 "/v1/latest" sample_params in
  first.1 = Ok snapshot_payload ∧
  files second.2 = files first.2 ∧
  trace second.2 = trace first.2 ++ [CacheExists cache_file; CacheRead cache_file].
Proof.
  destruct (@get_json_second_call no_builtins sample_client snapshot_server
              rateless_server empty_world "/v1/latest" sample_params 200
              snapshot_payload)
    as (Hfirst & _ & _ & Hfiles & Htrace).
  - reflexivity.
  - apply lookup_empty.
  - reflexivity.
  - lia.
  - reflexivity.
  - cbv zeta. split; [exact Hfirst|]. split; [exact Hfiles|exact Htrace].
Defined.

Lemma get_json_cache_hit_witness :
  let after :=
    @FrankfurterClient._get_json no_builtins sample_client snapshot_server
      damaged_world "/v1/latest" sample_params in
  after.1 = Err JSONDecodeError ∧ files after.2 = files damaged_world.
Proof.
  destruct (@get_json_cache_hit no_builtins sample_client snapshot_server
              damaged_world "/v1/latest" sample_params "{")
    as (Hres & Hfiles & _).
  - reflexivity.
  - apply lookup_singleton_eq.
  - cbv zeta. split; [exact Hres|exact Hfiles].
Defined.

Lemma get_json_without_cache_witness :
  let after :=
    @FrankfurterClient._get_json no_builtins uncached_client snapshot_server
      damaged_world "/v1/latest" sample_params in
  files after.2 = files damaged_world ∧
  trace after.2 =
    [HttpGet "https://api.frankfurter.dev/v1/latest" sample_params 20].
Proof.
  exact (@get_json_without_cache no_builtins uncached_client snapshot_server
           damaged_world "/v1/latest" sample_params eq_refl).
Defined.

(** ** The shape of a cache key *)

Lemma sha256_round_length st kw : length (Sha256.round st kw) = length st.
Proof.
  unfold Sha256.round.
  by destruct st as [|a [|b [|c [|d [|e [|f [|g [|h [|]]]]]]]]].
Qed.

Lemma sha256_rounds_length kws st :
  length (foldl Sha256.round st kws) = length st.
Proof.
  revert st. induction kws as [|kw kws IH]; intros st; simpl; [done|].
  by rewrite IH, sha256_round_length.
Qed.

Lemma sha256_compress_length hash block :
  length (Sha256.compress hash block) = length hash.
Proof.
  unfold Sha256.compress. rewrite length_zip_with, sha256_rounds_length. lia.
Qed.

Lemma sha256_blocks_length blocks hash :
  length (foldl Sha256.compress hash blocks) = length hash.
Proof.
  revert hash. induction blocks as [|block blocks IH]; intros hash; simpl; [done|].
  by rewrite IH, sha256_compress_length.
Qed.

Lemma be_bytes_length n x : length (Sha256.be_bytes n x) = n.
Proof. induction n as [|n IH]; simpl; [done|]. by rewrite IH. Qed.

Lemma be_bytes_range n x : Forall (λ b, 0 ≤ b < 256) (Sha256.be_bytes n x).
Proof.
  induction n as [|n IH]; simpl; constructor; [|done].
  apply Z.mod_pos_bound. lia.
Qed.

Lemma be_words_length (words : list Z) :
  length (mjoin (Sha256.be_bytes 4 <$> words)) = (4 * length words)%nat.
Proof.
  induction words as [|w words IH]; [done|].
  rewrite fmap_cons.
  change (length (Sha256.be_bytes 4 w ++ mjoin (Sha256.be_bytes 4 <$> words))
          = (4 * length (w :: words))%nat).
  rewrite length_app, be_bytes_length, IH. simpl. lia.
Qed.

Lemma be_words_range (words : list Z) :
  Forall (λ b, 0 ≤ b < 256) (mjoin (Sha256.be_bytes 4 <$> words)).
Proof.
  induction words as [|w words IH]; [constructor|].
  rewrite fmap_cons.
  change (Forall (λ b, 0 ≤ b < 256)
            (Sha256.be_bytes 4 w ++ mjoin (Sha256.be_bytes 4 <$> words))).
  apply Forall_app. split; [apply be_bytes_range|done].
Qed.

Lemma sha256_digest_length msg : length (Sha256.digest msg) = 32%nat.
Proof.
  unfold Sha256.digest. cbv zeta.
  by rewrite be_words_length, sha256_blocks_length.
Qed.

Lemma sha256_digest_range msg : Forall (λ b, 0 ≤ b < 256) (Sha256.digest msg).
Proof. unfold Sha256.digest. cbv zeta. apply be_words_range. Qed.

Lemma hex_digit_is_hex n : 0 ≤ n < 16 → is_hex_digit (hex_digit n) = true.
Proof.
  intros Hn.
  assert (n = 0 ∨ n = 1 ∨ n = 2 ∨ n = 3 ∨ n = 4 ∨ n = 5 ∨ n = 6 ∨ n = 7 ∨
          n = 8 ∨ n = 9 ∨ n = 10 ∨ n = 11 ∨ n = 12 ∨ n = 13 ∨ n = 14 ∨ n = 15)
    as Hcases by lia.
  repeat (destruct Hcases as [-> | Hcases]; [reflexivity|]).
  by subst.
Qed.

Lemma hex_of_bytes_shape bytes :
  Forall (λ b, 0 ≤ b < 256) bytes →
  String.length (hex_of_bytes bytes) = (2 * length bytes)%nat ∧
  Forall (λ c, is_hex_digit c = true) (list_ascii_of_string (hex_of_bytes bytes)).
Proof.
  induction 1 as [|b bytes Hb _ [IHlen IHhex]]; simpl; [by split|].
  split; [rewrite IHlen; lia|].
  constructor; [apply hex_digit_is_hex|constructor; [apply hex_digit_is_hex|done]].
  - split; [apply Z.div_pos; lia|apply Z.div_lt_upper_bound; lia].
  - apply Z.mod_pos_bound. lia.
Qed.

(** *** Paths *)

Lemma append_nil (t : string) : "" +:+ t = t.
Proof. reflexivity. Qed.

Lemma append_cons c (s t : string) : String c s +:+ t = String c (s +:+ t).
Proof. reflexivity. Qed.

Lemma append_assoc (s t u : string) : (s +:+ t) +:+ u = s +:+ (t +:+ u).
Proof.
  induction s as [|c s IH]; [done|]. by rewrite !append_cons, IH.
Qed.

Lemma chars_append (s t : string) :
  list_ascii_of_string (s +:+ t) =
    list_ascii_of_string s ++ list_ascii_of_string t.
Proof.
  induction s as [|c s IH]; [done|]. rewrite append_cons. simpl. by rewrite IH.
Qed.

(** A text without the separator is one piece. *)
Lemma split_on_free sep s :
  sep ∉ list_ascii_of_string s → split_on sep s = [s].
Proof.
  induction s as [|c s IH]; [done|]. simpl.
  rewrite not_elem_of_cons. intros [Hc Hs].
  case_decide; [congruence|]. by rewrite IH.
Qed.

(** The text of a path that ends in a part is a prefix, empty or ending
    in a slash, and that part. *)
Lemma path_str_last root parts name :
  root = "" ∨ root = "/" ∨ root = "//" →
  ∃ prefix,
    Path.str {| Path.root := root; Path.parts := parts ++ [name] |} =
      prefix +:+ name ∧
    (prefix = "" ∨ ∃ p, prefix = p +:+ "/").
Proof.
  intros Hroot.
  assert (∃ prefix, join "/" (parts ++ [name]) = prefix +:+ name ∧
                    (prefix = "" ∨ ∃ p, prefix = p +:+ "/"))
    as (prefix & Hjoin & Hprefix).
  { induction parts as [|part parts (prefix & IH & Hprefix)].
    - exists "". split; [done|by left].
    - exists (part +:+ "/" +:+ prefix). split.
      + change ((part :: parts) ++ [name]) with (part :: (parts ++ [name])).
        destruct (parts ++ [name]) as [|part' rest] eqn:Hrest.
        { by destruct parts. }
        change (join "/" (part :: part' :: rest))
          with (part +:+ "/" +:+ join "/" (part' :: rest)).
        by rewrite IH, !append_assoc.
      + right. destruct Hprefix as [->|[p ->]].
        * by exists part.
        * exists (part +:+ "/" +:+ p). by rewrite !append_assoc. }
  assert (Path.str {| Path.root := root; Path.parts := parts ++ [name] |} =
          root +:+ join "/" (parts ++ [name])) as ->.
  { unfold Path.str. cbn [Path.root Path.parts].
    destruct root; [|done]. by destruct parts. }
  rewrite Hjoin. exists (root +:+ prefix). split; [by rewrite append_assoc|].
  destruct Hprefix as [->|[p ->]].
  - destruct Hroot as [->|[->| ->]]; [by left|right..].
    + by exists "".
    + by exists "/".
  - right. exists (root +:+ p). by rewrite append_assoc.
Qed.

Lemma path_root_cases s :
  Path.root (Path.of_str s) = "" ∨ Path.root (Path.of_str s) = "/" ∨
  Path.root (Path.of_str s) = "//".
Proof.
  unfold Path.of_str. cbn [Path.root].
  destruct (leading_slashes s) as [|[|[|n]]]; auto.
Qed.

Lemma hex_digit_no_slash c : is_hex_digit c = true → c ≠ "/"%char.
Proof. intros Hc ->. discriminate Hc. Qed.

(** X18.  The file of a query lies in the cache directory under a flat
    name.  Its path is the path of the cache directory with one more
    part, the key followed by [.json]; the key has exactly 64 characters,
    all digits or letters from a to f; and the text of the path is that
    name after a prefix that is empty or ends in a slash, whatever the
    directory, the endpoint and the parameters are. *)
Theorem cache_file_shape `{Builtins} self endpoint params :
  let dir := Path.of_str (FrankfurterClient.cache_dir self) in
  ∃ key,
    FrankfurterClient._cache_key endpoint params = key ∧
    String.length key = 64%nat ∧
    Forall (λ c, is_hex_digit c = true) (list_ascii_of_string key) ∧
    FrankfurterClient._cache_file self endpoint params =
      Path.str {| Path.root := Path.root dir;
                  Path.parts := Path.parts dir ++ [key +:+ ".json"] |} ∧
    ∃ prefix,
      FrankfurterClient._cache_file self endpoint params =
        prefix +:+ key +:+ ".json" ∧
      (prefix = "" ∨ ∃ p, prefix = p +:+ "/").
Proof.
  cbv zeta.
  assert (String.length (FrankfurterClient._cache_key endpoint params) = 64%nat ∧
          Forall (λ c, is_hex_digit c = true)
            (list_ascii_of_string (FrankfurterClient._cache_key endpoint params)))
    as [Hlen Hhex].
  { unfold FrankfurterClient._cache_key, sha256_hexdigest.
    destruct (hex_of_bytes_shape _ (sha256_digest_range
      (utf8_encode (json_dumps true
         (JDict [("endpoint", JStr endpoint); ("params", JDict params)])))))
      as [Hlen Hhex].
    split; [|done]. by rewrite Hlen, sha256_digest_length. }
  set (key := FrankfurterClient._cache_key endpoint params) in *.
  exists key. split; [done|]. split; [done|]. split; [done|].
  assert (Path.of_str (key +:+ ".json") =
          {| Path.root := ""; Path.parts := [key +:+ ".json"] |}) as Hname.
  { destruct key as [|c key']; [done|].
    assert (c ≠ "/"%char) as Hc.
    { apply hex_digit_no_slash. by inversion Hhex. }
    assert ("/"%char ∉ list_ascii_of_string (String c key' +:+ ".json"))
      as Hfree.
    { rewrite chars_append, not_elem_of_app. split.
      - intros Hin. rewrite Forall_forall in Hhex.
        by apply Hhex, hex_digit_no_slash in Hin.
      - simpl. rewrite !not_elem_of_cons. repeat split; try done.
        apply not_elem_of_nil. }
    unfold Path.of_str. rewrite (split_on_free _ _ Hfree).
    rewrite append_cons. cbn [leading_slashes List.filter].
    destruct (decide (c = "/"%char)); [done|].
    assert (String.eqb (String c (key' +:+ ".json")) "" = false) as -> by done.
    assert (String.eqb (String c (key' +:+ ".json")) "." = false) as ->; [|done].
    apply String.eqb_neq. intros [= _ Hrest]. by destruct key'. }
  assert (FrankfurterClient._cache_file self endpoint params =
          Path.str {| Path.root := Path.root (Path.of_str (FrankfurterClient.cache_dir self));
                      Path.parts := Path.parts (Path.of_str (FrankfurterClient.cache_dir self))
                                      ++ [key +:+ ".json"] |}) as Hfile.
  { unfold FrankfurterClient._cache_file, Path.joinpath. fold key.
    by rewrite Hname. }
  split; [done|]. rewrite Hfile.
  apply path_str_last, path_root_cases.
Qed.

(** ** Trimming and upper case *)


Section Strip.
Context (p : ascii → bool).

Lemma lstrip_with_head s :
  lstrip_with p s = "" ∨ ∃ c t, lstrip_with p s = String c t ∧ p c = false.
Proof.
  induction s as [|c s IH]; simpl; [by left|].
  destruct (p c) eqn:Hc; [done|]. right. by exists c, s.
Qed.

Lemma lstrip_with_fixed c t : p c = false → lstrip_with p (String c t) = String c t.
Proof. intros Hc. simpl. by rewrite Hc. Qed.

Lemma rstrip_with_head c t :
  p c = false → ∃ r, rstrip_with p (String c t) = String c r.
Proof.
  intros Hc. simpl. destruct (rstrip_with p t); rewrite ?Hc; by eexists.
Qed.

Lemma rstrip_with_idemp s : rstrip_with p (rstrip_with p s) = rstrip_with p s.
Proof.
  induction s as [|c s IH]; simpl; [done|].
  destruct (rstrip_with p s) as [|c' r] eqn:Hr.
  - destruct (p c) eqn:Hc; simpl; [done|]. by rewrite Hc.
  - simpl in *. by rewrite IH.
Qed.

(** What [rstrip] takes off is a run of characters of the set, and what it
    leaves does not end in one. *)
Lemma rstrip_with_tail s :
  ∃ tail, s = rstrip_with p s +:+ tail ∧
          Forall (λ c, p c = true) (list_ascii_of_string tail).
Proof.
  induction s as [|c s (tail & Hs & Htail)]; simpl; [by exists ""|].
  destruct (rstrip_with p s) as [|c' r] eqn:Hr.
  - change (s = tail) in Hs. subst tail. destruct (p c) eqn:Hc.
    + exists (String c s). split; [done|]. by constructor.
    + by exists s.
  - exists tail. split; [|done].
    change (String c s = String c (String c' r +:+ tail)). by rewrite <-Hs.
Qed.

Lemma rstrip_with_last s prefix c :
  rstrip_with p s = prefix +:+ String c "" → p c = false.
Proof.
  revert prefix. induction s as [|c0 s IH]; intros prefix; simpl.
  - destruct prefix; rewrite ?append_nil, ?append_cons; discriminate.
  - destruct (rstrip_with p s) as [|c' r] eqn:Hr.
    + destruct (p c0) eqn:Hc0.
      * destruct prefix; rewrite ?append_nil, ?append_cons; discriminate.
      * destruct prefix as [|c1 prefix]; rewrite ?append_nil, ?append_cons.
        -- by intros [= <-].
        -- intros Heq. injection Heq as _ Hrest.
           destruct prefix; rewrite ?append_nil, ?append_cons in Hrest;
             discriminate.
    + destruct prefix as [|c1 prefix]; rewrite ?append_nil, ?append_cons.
      * intros Heq. injection Heq as _ Hrest. discriminate.
      * intros Heq. injection Heq as _ Hrest. by apply (IH prefix).
Qed.

Lemma strip_with_idemp s :
  rstrip_with p (lstrip_with p (rstrip_with p (lstrip_with p s))) =
  rstrip_with p (lstrip_with p s).
Proof.
  destruct (lstrip_with_head s) as [-> | (c & t & -> & Hc)]; [done|].
  destruct (rstrip_with_head c t Hc) as [r Hr].
  rewrite <-(rstrip_with_idemp (String c t)) at 2.
  rewrite Hr at 1. rewrite lstrip_with_fixed by done. by rewrite <-Hr.
Qed.

End Strip.

Lemma is_space_upper_char c : is_space (upper_char c) = is_space c.
Proof. by destruct c as [[] [] [] [] [] [] [] []]. Qed.

Lemma lstrip_upper s :
  lstrip_with is_space (upper s) = upper (lstrip_with is_space s).
Proof.
  induction s as [|c s IH]; simpl; [done|].
  rewrite is_space_upper_char. by destruct (is_space c).
Qed.

Lemma rstrip_upper s :
  rstrip_with is_space (upper s) = upper (rstrip_with is_space s).
Proof.
  induction s as [|c s IH]; simpl; [done|]. rewrite IH.
  destruct (rstrip_with is_space s); simpl; [|done].
  rewrite is_space_upper_char. by destruct (is_space c).
Qed.

Lemma strip_upper s : strip (upper s) = upper (strip s).
Proof. unfold strip. by rewrite lstrip_upper, rstrip_upper. Qed.

Lemma strip_idemp s : strip (strip s) = strip s.
Proof. apply strip_with_idemp. Qed.

Lemma upper_empty s : upper s = "" → s = "".
Proof. by destruct s. Qed.

(** A symbol as [_clean_symbols] leaves it: not empty, trimmed, upper case. *)
Lemma clean_symbol_fixed s :
  strip s ≠ "" →
  upper (strip s) ≠ "" ∧ strip (upper (strip s)) = upper (strip s) ∧
  upper (upper (strip s)) = upper (strip s).
Proof.
  intros Hs. split; [by apply upper_nonempty|].
  split; [by rewrite strip_upper, strip_idemp|apply upper_idemp].
Qed.

(** X19.  The base URL of a client is the URL it was built from without
    the slashes at its end: it does not end in a slash, the URL is the
    base URL followed by slashes only, and building a client from a base
    URL gives that base URL back. *)
Theorem init_base_url url dir timeout cache :
  let self := FrankfurterClient.__init__ url dir timeout cache in
  (∀ prefix, FrankfurterClient.base_url self ≠ prefix +:+ "/") ∧
  (∃ slashes, url = FrankfurterClient.base_url self +:+ slashes ∧
              Forall (λ c, c = "/"%char) (list_ascii_of_string slashes)) ∧
  FrankfurterClient.base_url
    (FrankfurterClient.__init__ (FrankfurterClient.base_url self) dir timeout cache)
    = FrankfurterClient.base_url self.
Proof.
  cbv zeta. unfold FrankfurterClient.__init__, rstrip_slash. simpl.
  split; [|split].
  - intros prefix Heq. apply rstrip_with_last in Heq.
    by rewrite bool_decide_eq_false in Heq.
  - destruct (rstrip_with_tail (λ c, bool_decide (c = "/"%char)) url)
      as (tail & Hurl & Htail).
    exists tail. split; [done|].
    eapply Forall_impl; [exact Htail|]. intros c Hc.
    by apply bool_decide_eq_true in Hc.
  - apply rstrip_with_idemp.
Qed.

(** What the comprehension of [_clean_symbols] and [_parse_symbols] keeps:
    symbols that are not empty, trimmed and in upper case. *)
Lemma cleaned_shape (pieces : list string) :
  Forall (λ s, s ≠ "" ∧ strip s = s ∧ upper s = s)
    (map (λ s, upper (strip s))
       (List.filter (λ s, str_truthy (strip s)) pieces)).
Proof.
  apply Forall_forall. intros s Hs.
  apply list_elem_of_In, in_map_iff in Hs as (piece & <- & Hpiece).
  apply filter_In in Hpiece as [_ Hpiece]. apply str_truthy_true in Hpiece.
  by apply clean_symbol_fixed.
Qed.

(** Cleaning leaves such symbols as they are. *)
Lemma clean_symbols_fixed (symbols : list string) :
  symbols ≠ [] →
  Forall (λ s, s ≠ "" ∧ strip s = s ∧ upper s = s) symbols →
  _clean_symbols symbols = Ok symbols.
Proof.
  intros Hne Hshape. unfold _clean_symbols.
  assert (List.filter (λ s, str_truthy (strip s)) symbols = symbols) as ->.
  { clear Hne. induction Hshape as [|s l (Hs & Hstrip & _) _ IH]; simpl; [done|].
    rewrite Hstrip. apply str_truthy_true in Hs. by rewrite Hs, IH. }
  assert (map (λ s, upper (strip s)) symbols = symbols) as ->.
  { clear Hne. induction Hshape as [|s l (_ & Hstrip & Hupper) _ IH]; simpl; [done|].
    by rewrite Hstrip, Hupper, IH. }
  by destruct symbols.
Qed.

(** X20.  Cleaning symbols is idempotent.  A list that [_clean_symbols]
    returns is not empty and no longer than its input; each of its symbols
    is not empty, has no blank at either end and is in upper case; and
    cleaning it again returns it unchanged. *)
Theorem clean_symbols_idempotent symbols cleaned :
  _clean_symbols symbols = Ok cleaned →
  cleaned ≠ [] ∧
  (length cleaned ≤ length symbols)%nat ∧
  Forall (λ s, s ≠ "" ∧ strip s = s ∧ upper s = s) cleaned ∧
  _clean_symbols cleaned = Ok cleaned.
Proof.
  unfold _clean_symbols at 1.
  pose proof (cleaned_shape symbols) as Hshape.
  pose proof (List.filter_length_le (λ s, str_truthy (strip s)) symbols) as Hlen.
  rewrite <-(length_map (λ s, upper (strip s))) in Hlen.
  destruct (map _ (List.filter _ symbols)) as [|c0 cs]; [done|].
  intros [= <-]. split; [done|]. split; [exact Hlen|]. split; [done|].
  by apply clean_symbols_fixed.
Qed.

Lemma clean_symbols_idempotent_witness :
  _clean_symbols [" brl"; ""; "eur "] = Ok ["BRL"; "EUR"] ∧
  _clean_symbols ["BRL"; "EUR"] = Ok ["BRL"; "EUR"].
Proof.
  split; [reflexivity|].
  exact (proj2 (proj2 (proj2
    (clean_symbols_idempotent [" brl"; ""; "eur "] ["BRL"; "EUR"] eq_refl)))).
Defined.

(** ** The command line: symbols *)

Lemma split_comma_nonempty s : split_comma s ≠ [].
Proof.
  destruct s as [|c s]; simpl; [done|].
  case_decide; [done|]. by destruct (split_comma s).
Qed.

(** Splitting loses nothing: joining the pieces gives the text back. *)
Lemma join_split_comma s : join "," (split_comma s) = s.
Proof.
  induction s as [|c s IH]; simpl; [done|].
  case_decide as Hc.
  - subst c. pose proof (split_comma_nonempty s) as Hne.
    destruct (split_comma s) as [|piece pieces] eqn:Hs; [done|].
    change (join "," ("" :: piece :: pieces))
      with ("" +:+ "," +:+ join "," (piece :: pieces)).
    by rewrite IH.
  - destruct (split_comma s) as [|piece [|piece' pieces]] eqn:Hs.
    + by destruct (split_comma_nonempty s).
    + simpl in *. by rewrite IH.
    + change (join "," (String c piece :: piece' :: pieces))
        with (String c (piece +:+ "," +:+ join "," (piece' :: pieces))).
      by rewrite <-IH.
Qed.

Lemma comma_free_empty : comma_free "".
Proof. unfold comma_free. simpl. apply not_elem_of_nil. Qed.

Lemma comma_free_cons c s : comma_free (String c s) ↔ c ≠ ","%char ∧ comma_free s.
Proof.
  unfold comma_free. simpl. rewrite not_elem_of_cons.
  split; intros [? ?]; split; congruence.
Qed.

Lemma split_comma_pieces s : Forall comma_free (split_comma s).
Proof.
  induction s as [|c s IH]; simpl.
  - constructor; [|constructor]. unfold comma_free. simpl. apply not_elem_of_nil.
  - case_decide as Hc.
    + constructor; [|done]. unfold comma_free. simpl. apply not_elem_of_nil.
    + destruct (split_comma s) as [|piece pieces].
      * constructor; [|constructor]. apply comma_free_cons. split; [done|].
        unfold comma_free. simpl. apply not_elem_of_nil.
      * inversion IH as [|? ? Hpiece Hpieces]; subst.
        constructor; [|done]. by apply comma_free_cons.
Qed.

Lemma split_comma_free s : comma_free s → split_comma s = [s].
Proof.
  induction s as [|c s IH]; [done|].
  intros [Hc Hs]%comma_free_cons. simpl. case_decide; [done|].
  by rewrite IH.
Qed.

Lemma split_comma_app s rest :
  comma_free s → split_comma (s +:+ String "," rest) = s :: split_comma rest.
Proof.
  induction s as [|c s IH].
  - intros _. by rewrite append_nil.
  - intros [Hc Hs]%comma_free_cons. rewrite append_cons. simpl.
    case_decide; [done|]. by rewrite IH.
Qed.

Lemma split_comma_join pieces :
  pieces ≠ [] → Forall comma_free pieces →
  split_comma (join "," pieces) = pieces.
Proof.
  intros Hne Hfree. induction Hfree as [|piece pieces Hpiece Hpieces IH]; [done|].
  destruct pieces as [|piece' pieces].
  - by apply split_comma_free.
  - change (join "," (piece :: piece' :: pieces))
      with (piece +:+ String "," (join "," (piece' :: pieces))).
    rewrite split_comma_app by done. by rewrite IH.
Qed.

Lemma comma_free_lstrip p s : comma_free s → comma_free (lstrip_with p s).
Proof.
  induction s as [|c s IH]; [done|]. simpl.
  intros Hs. destruct (p c); [|exact Hs]. apply IH.
  by apply comma_free_cons in Hs as [_ Hs].
Qed.

Lemma comma_free_rstrip p s : comma_free s → comma_free (rstrip_with p s).
Proof.
  induction s as [|c s IH]; [done|]. simpl.
  intros [Hc Hs]%comma_free_cons.
  destruct (rstrip_with p s) as [|c' r] eqn:Hr.
  - destruct (p c); [apply comma_free_empty|].
    apply comma_free_cons. split; [done|apply comma_free_empty].
  - apply comma_free_cons. split; [done|]. by apply IH.
Qed.

Lemma upper_char_comma c : upper_char c = ","%char → c = ","%char.
Proof.
  destruct c as [[] [] [] [] [] [] [] []]; vm_compute; congruence.
Qed.

Lemma comma_free_upper s : comma_free s → comma_free (upper s).
Proof.
  induction s as [|c s IH]; [done|]. simpl.
  intros [Hc Hs]%comma_free_cons. apply comma_free_cons.
  split; [|by apply IH]. intros Hup. by apply upper_char_comma in Hup.
Qed.

(** X21.  What the command line accepts for [--symbols] is in the form
    the client sends.  Every symbol of an accepted list is not empty, has
    no blank at either end, is in upper case and holds no comma; the
    client's own cleaning returns the list unchanged, so a fetch with it
    cannot fail on the symbols; and the list survives the round trip through
    the text of the argument: joined with commas and parsed again it is
    the same list. *)
Theorem parse_symbols_accepted raw symbols :
  _parse_symbols raw = Accepted symbols →
  symbols ≠ [] ∧
  Forall (λ s, s ≠ "" ∧ strip s = s ∧ upper s = s ∧ comma_free s) symbols ∧
  _clean_symbols symbols = Ok symbols ∧
  _parse_symbols (join "," symbols) = Accepted symbols.
Proof.
  unfold _parse_symbols at 1. cbv zeta.
  pose proof (cleaned_shape (split_comma raw)) as Hshape.
  assert (Forall comma_free
            (map (λ s, upper (strip s))
               (List.filter (λ s, str_truthy (strip s)) (split_comma raw))))
    as Hfree.
  { apply Forall_forall. intros s Hs.
    apply list_elem_of_In, in_map_iff in Hs as (piece & <- & Hpiece).
    apply filter_In in Hpiece as [Hpiece _].
    apply comma_free_upper, comma_free_rstrip, comma_free_lstrip.
    pose proof (split_comma_pieces raw) as Hpieces.
    rewrite Forall_forall in Hpieces. by apply Hpieces, list_elem_of_In. }
  destruct (map _ (List.filter _ (split_comma raw))) as [|c0 cs]; [done|].
  intros [= <-]. split; [done|]. split.
  { apply Forall_forall. intros s Hs. rewrite Forall_forall in Hshape, Hfree.
    destruct (Hshape s Hs) as (? & ? & ?). by auto. }
  assert (_clean_symbols (c0 :: cs) = Ok (c0 :: cs)) as Hclean
    by (by apply clean_symbols_fixed).
  split; [exact Hclean|].
  unfold _parse_symbols. rewrite split_comma_join by done.
  unfold _clean_symbols in Hclean.
  destruct (map _ (List.filter _ (c0 :: cs))) as [|c1 cs']; [done|].
  by injection Hclean as -> ->.
Qed.

Lemma parse_symbols_accepted_witness :
  _parse_symbols " brl, ,eur" = Accepted ["BRL"; "EUR"] ∧
  _clean_symbols ["BRL"; "EUR"] = Ok ["BRL"; "EUR"] ∧
  _parse_symbols (join "," ["BRL"; "EUR"]) = Accepted ["BRL"; "EUR"].
Proof.
  split; [reflexivity|].
  exact (proj2 (proj2 (parse_symbols_accepted " brl, ,eur" ["BRL"; "EUR"] eq_refl))).
Defined.

(** X22.  The command line and the client clean symbols alike.  For a
    list of symbols without commas that is not empty, parsing the text
    that joins them with commas accepts exactly the list the client's
    cleaning returns for them, and is refused exactly when that cleaning
    raises, that is when every symbol is blank; and splitting never loses
    text, joining the pieces of any text gives the text back. *)
Theorem parse_symbols_join symbols :
  symbols ≠ [] → Forall comma_free symbols →
  _parse_symbols (join "," symbols) =
    match _clean_symbols symbols with
    | Ok cleaned => Accepted cleaned
    | Err _ => ArgumentTypeError "Informe ao menos um symbol em --symbols"
    end ∧
  ∀ raw, join "," (split_comma raw) = raw.
Proof.
  intros Hne Hfree. split; [|apply join_split_comma].
  unfold _parse_symbols, _clean_symbols. rewrite split_comma_join by done.
  by destruct (map _ (List.filter _ symbols)).
Qed.

Lemma parse_symbols_join_witness :
  _parse_symbols (join "," [" "; ""]) =
    ArgumentTypeError "Informe ao menos um symbol em --symbols" ∧
  _parse_symbols (join "," ["brl"; " eur "]) = Accepted ["BRL"; "EUR"].
Proof.
  split.
  - refine (proj1 (parse_symbols_join [" "; ""] _ _)); [done|].
    repeat constructor; apply (bool_decide_unpack _); vm_compute; exact I.
  - refine (proj1 (parse_symbols_join ["brl"; " eur "] _ _)); [done|].
    repeat constructor; apply (bool_decide_unpack _); vm_compute; exact I.
Defined.

(** ** The command line: runs *)





Section Ingest.
Context `{Builtins}.





(** The subcommands are instances of [subcommand]. *)
Lemma subcommands_inv name run :
  (name, run) ∈ subcommands →
  ∃ args_ fetch,
    run = subcommand name args_ fetch ∧
    ∀ client out args w symbols_error,
      _clean_symbols (Namespace.symbols args) = Err symbols_error →
      fetch client out args w = (Err symbols_error, w).
Proof.
  unfold subcommands. intros Hrun.
  apply elem_of_cons in Hrun as [[= -> ->]|Hrun].
  - eexists _, _. split; [reflexivity|]. intros client out args w e He. cbv beta.
    unfold FrankfurterClient.fetch_timeseries. by rewrite He.
  - apply list_elem_of_singleton in Hrun as [= -> ->].
    eexists _, _. split; [reflexivity|]. intros client out args w e He. cbv beta.
    unfold FrankfurterClient.fetch_latest. by rewrite He.
Qed.



End Ingest.

Section IngestWorld.
Context `{Builtins}.
Import FrankfurterClient.






(** X27.  A log level that [logging] has no name for ends a subcommand
    before its run is recorded.  When the three directories can be made
    and the level of the settings, taken from [--log-level] or else from
    the environment, is a text whose upper case the model has and is none
    of the level names, the subcommand raises the error of [setLevel]; the
    database file is as it was, with no run added, or still does not
    exist; and the world is as it was, with no request sent. *)
Theorem run_unknown_log_level name run out file w args :
  (name, run) ∈ subcommands →
  let settings := _apply_common_settings (environ out) args in
  ensure_runtime_paths out settings = Ok () →
  has_upper (Settings.log_level settings) = true →
  upper (Settings.log_level settings) ∉ level_names →
  run out file w args =
    (Err (UnknownLevel (upper (Settings.log_level settings))), file, w).
Proof.
  intros Hrun. cbv zeta. intros Hpaths _ Hlevel.
  apply subcommands_inv in Hrun as (args_ & fetch & -> & _).
  unfold subcommand. cbv zeta.
  assert (setup out (_apply_common_settings (environ out) args) file =
          Err (UnknownLevel
                 (upper (Settings.log_level
                           (_apply_common_settings (environ out) args)))))
    as ->; [|done].
  unfold setup. rewrite Hpaths.
  unfold ensure_runtime_paths, raise_if in Hpaths.
  unfold _configure_logging, raise_if.
  destruct (mkdir out (parent_text (Settings.db_path _))); [done|].
  destruct (mkdir out (path_text (Settings.cache_dir _))); [done|].
  destruct (mkdir out (parent_text (Settings.log_file _))); [done|].
  by rewrite bool_decide_eq_false_2.
Qed.

End IngestWorld.

Lemma daily_in_subcommands :
  ("daily", @run_daily no_builtins) ∈ @subcommands no_builtins.
Proof. unfold subcommands. right. left. Qed.






Lemma run_unknown_log_level_witness :
  @run_daily no_builtins sample_outside None empty_world loud_args =
    (Err (UnknownLevel "LOUD"), None, empty_world).
Proof.
  apply (@run_unknown_log_level no_builtins "daily" _ sample_outside None
           empty_world loud_args daily_in_subcommands).
  - reflexivity.
  - reflexivity.
  - vm_compute. intros Hin.
    repeat (apply elem_of_cons in Hin as [Hin|Hin]; [discriminate Hin|]).
    by apply elem_of_nil in Hin.
Defined.
